(** * make_pack.py: the TF-IDF pack builder of the resume chatbot

    A shallow embedding of [scripts/make_pack.py] and the properties of its
    pipeline: text normalisation, chunk segmentation, tokenisation, vocabulary
    and weight building, and the final write of the pack.

    Conventions.
    - A Python [str] is the list of its code points ([N]).
    - Python's insertion-ordered [dict] and [Counter] are association lists
      in insertion order; a [set] is a duplicate-free list whose iteration
      order is left to the interpreter (see [Runtime]).
    - Python's [float] is an abstract type with the operations the script
      uses ([PyFloat]); what the proofs need of its arithmetic is stated as
      the laws [PyFloatLaws], which the real numbers satisfy
      ([R_float_laws]).
    - [raise SystemExit(...)] and [KeyError] are the [Raise] outcomes of the
      error monad [result]. *)

From Stdlib Require Import String Ascii DecimalString.
From Stdlib Require Import List NArith ZArith Arith Bool Lia.
From Stdlib Require Import Permutation Sorted.
From Stdlib Require Import Reals Lra.
Import ListNotations.

Set Implicit Arguments.

(** ** Python strings *)

Module Py.

Definition char := N.
Definition str := list char.

(** An ASCII literal as a Python string. *)
Definition lit (s : string) : str := map N_of_ascii (list_ascii_of_string s).

Definition LF : char := 10%N.
Definition CR : char := 13%N.
Definition TAB : char := 9%N.
Definition SPACE : char := 32%N.
Definition HYPHEN : char := 45%N.
Definition APOSTROPHE : char := 39%N.

Definition str_eqb (a b : str) : bool :=
  if list_eq_dec N.eq_dec a b then true else false.

(** [str.isspace] on one code point; this is also the class [\s] of [re] on
    [str] patterns and the separator set of [str.strip()] and
    [str.split()]. *)
Definition isspace (c : char) : bool :=
  (((9 <=? c) && (c <=? 13)) || ((28 <=? c) && (c <=? 32))
   || (c =? 133) || (c =? 160) || (c =? 5760)
   || ((8192 <=? c) && (c <=? 8202))
   || (c =? 8232) || (c =? 8233) || (c =? 8239) || (c =? 8287)
   || (c =? 12288))%N.

Fixpoint takewhile (p : char -> bool) (s : str) : str :=
  match s with
  | [] => []
  | c :: rest => if p c then c :: takewhile p rest else []
  end.

Fixpoint dropwhile (p : char -> bool) (s : str) : str :=
  match s with
  | [] => []
  | c :: rest => if p c then dropwhile p rest else s
  end.

(** [s.strip()] *)
Definition lstrip (s : str) : str := dropwhile isspace s.
Definition rstrip (s : str) : str := rev (dropwhile isspace (rev s)).
Definition strip (s : str) : str := rstrip (lstrip s).

(** [s.split()]: the maximal runs of non-space characters; [cur] holds the
    current word, reversed. *)
Fixpoint split_from (cur : str) (s : str) : list str :=
  match s with
  | [] => match cur with [] => [] | _ => [rev cur] end
  | c :: rest =>
      if isspace c
      then match cur with
           | [] => split_from [] rest
           | _ => rev cur :: split_from [] rest
           end
      else split_from (c :: cur) rest
  end.

Definition split (s : str) : list str := split_from [] s.

(** [sep.join(parts)] *)
Fixpoint join (sep : str) (parts : list str) : str :=
  match parts with
  | [] => []
  | [p] => p
  | p :: more => p ++ sep ++ join sep more
  end.

(** [s.startswith(prefix)] *)
Fixpoint startswith (s prefix : str) {struct prefix} : bool :=
  match prefix, s with
  | [], _ => true
  | _ :: _, [] => false
  | p :: prefix', c :: s' => (p =? c)%N && startswith s' prefix'
  end.

(** The line boundaries of [str.splitlines]. *)
Definition is_linebreak (c : char) : bool :=
  (((10 <=? c) && (c <=? 13)) || ((28 <=? c) && (c <=? 30))
   || (c =? 133) || (c =? 8232) || (c =? 8233))%N.

(** [s.splitlines()]: [after_cr] records that the previous character was a
    carriage return, whose following line feed belongs to the same boundary;
    [cur] is the current line, reversed.  A last line without terminator is
    returned only when it is not empty. *)
Fixpoint splitlines_from (after_cr : bool) (cur : str) (s : str) : list str :=
  match s with
  | [] => match cur with [] => [] | _ => [rev cur] end
  | c :: rest =>
      if after_cr && (c =? LF)%N then splitlines_from false cur rest
      else if is_linebreak c
           then rev cur :: splitlines_from (c =? CR)%N [] rest
           else splitlines_from false (c :: cur) rest
  end.

Definition splitlines (s : str) : list str := splitlines_from false [] s.

(** [re.sub(pattern, repl, s)] for a pattern without anchors that matches no
    empty string.  [m t] is the length of the match of the pattern at the
    head of [t], when there is one.  Matches are taken from left to right
    and do not overlap: [skip] counts the characters of the current match
    still to be consumed. *)
Fixpoint sub_from (m : str -> option nat) (repl : str) (skip : nat) (s : str)
  : str :=
  match s with
  | [] => []
  | c :: rest =>
      match skip with
      | S k => sub_from m repl k rest
      | O =>
          match m s with
          | Some (S n) => repl ++ sub_from m repl n rest
          | _ => c :: sub_from m repl 0 rest
          end
      end
  end.

Definition re_sub (m : str -> option nat) (repl s : str) : str :=
  sub_from m repl 0 s.

(** [s.replace(old, new)] for a non-empty [old]. *)
Definition match_literal (old : str) (t : str) : option nat :=
  if startswith t old then Some (length old) else None.

Definition replace (old new s : str) : str := re_sub (match_literal old) new s.

(** [s.lower()] on ASCII text: the capital letters A-Z become small and
    every other ASCII character stays.  Outside ASCII [str.lower()] follows
    the Unicode tables (it turns U+212A into k, and U+0130 into i and
    U+0307), which are not modelled: what depends on the tokens of a text is
    stated for ASCII text, as [normalize_text] returns it. *)
Definition lower_char (c : char) : char :=
  if ((65 <=? c) && (c <=? 90))%N then (c + 32)%N else c.

Definition lower (s : str) : str := map lower_char s.

(** [s.encode("ascii", "ignore").decode("ascii")] *)
Definition is_ascii (c : char) : bool := (c <? 128)%N.
Definition ascii_ignore (s : str) : str := filter is_ascii s.

(** [sorted(l)]: a stable sort that, like Python's, only asks [x < y].
    [x] goes in front of the first element that is not smaller than it. *)
Section Sorted.
Variable A : Type.
Variable ltb : A -> A -> bool.

Fixpoint insort (x : A) (l : list A) : list A :=
  match l with
  | [] => [x]
  | y :: l' => if ltb y x then y :: insort x l' else x :: l
  end.

Definition sorted (l : list A) : list A := fold_right insort [] l.
End Sorted.

(** [<] on strings: lexicographic on code points. *)
Fixpoint str_ltb (a b : str) : bool :=
  match a, b with
  | _, [] => false
  | [], _ :: _ => true
  | x :: a', y :: b' => (x <? y)%N || ((x =? y)%N && str_ltb a' b')
  end.

End Py.

Import Py.

(** ** Text normaliser *)

(** BULLET_CHARS and UNICODE_DASHES, code point by code point. *)
Definition BULLET_CHARS : str :=
  [8226; 9679; 9642; 9642; 65038; 9702; 9673]%N.
Definition UNICODE_DASHES : str := [8210; 8211; 8212; 8213; 8722]%N.

Definition is_blank (c : char) : bool := ((c =? SPACE) || (c =? TAB))%N.
Definition is_newline (c : char) : bool := (c =? LF)%N.

(** [[ \t]+\n] *)
Definition match_trailing_blanks (t : str) : option nat :=
  let n := length (takewhile is_blank t) in
  match n, nth_error t n with
  | S _, Some c => if (c =? LF)%N then Some (S n) else None
  | _, _ => None
  end.

(** [\n{3,}] *)
Definition match_newlines3 (t : str) : option nat :=
  let n := length (takewhile is_newline t) in
  if 3 <=? n then Some n else None.

(** [\n-\s*] *)
Definition match_bullet (t : str) : option nat :=
  match t with
  | a :: b :: rest =>
      if ((a =? LF) && (b =? HYPHEN))%N
      then Some (2 + length (takewhile isspace rest))
      else None
  | _ => None
  end.

(** [\s{2,}] *)
Definition match_spaces2 (t : str) : option nat :=
  let n := length (takewhile isspace t) in
  if 2 <=? n then Some n else None.

Definition replace_each (chars : str) (new : str) (s : str) : str :=
  fold_left (fun cleaned ch => replace [ch] new cleaned) chars s.

Definition normalize_text (raw : str) : str :=
  let cleaned := replace [CR; LF] [LF] raw in
  let cleaned := replace_each BULLET_CHARS (lit "-") cleaned in
  let cleaned := replace_each UNICODE_DASHES (lit "-") cleaned in
  let cleaned := re_sub match_trailing_blanks [LF] cleaned in
  let cleaned := re_sub match_newlines3 [LF; LF] cleaned in
  let cleaned := re_sub match_bullet (LF :: lit "- ") cleaned in
  let cleaned := ascii_ignore cleaned in
  let cleaned := replace (lit "ap-arker-alt") (lit "Location: ") cleaned in
  let cleaned := replace (lit "/envelpe") (lit " Email: ") cleaned in
  let cleaned := replace (lit "phone-alt") (lit " Phone: ") cleaned in
  strip cleaned.

(** ** Chunk segmenter *)

(** The two lists [split_chunks] keeps while it scans the lines. *)
Record segmenter := Segmenter {
  seg_chunks : list str;
  seg_current : list str
}.

(** [flush]: [keep] is the test the joined chunk must pass to be appended;
    the accumulator is cleared in both cases. *)
Definition flush_with (keep : str -> bool) (st : segmenter) : segmenter :=
  match seg_current st with
  | [] => st
  | current =>
      let chunk := strip (join (lit " ") current) in
      let chunk := re_sub match_spaces2 (lit " ") chunk in
      Segmenter (if keep chunk then seg_chunks st ++ [chunk] else seg_chunks st)
                []
  end.

(** The body of [for line in lines]. *)
Definition step_with (keep : str -> bool) (st : segmenter) (line : str)
  : segmenter :=
  let stripped := strip line in
  match stripped with
  | [] => flush_with keep st
  | _ =>
      let st :=
        if startswith stripped (lit "-")
           && match seg_current st with [] => false | _ => true end
        then flush_with keep st
        else st in
      Segmenter (seg_chunks st) (seg_current st ++ [stripped])
  end.

Definition segment_with (keep : str -> bool) (text : str) : list str :=
  seg_chunks
    (flush_with keep
       (fold_left (step_with keep) (splitlines text) (Segmenter [] []))).

(** [len(chunk.split()) >= 5] *)
Definition five_words (chunk : str) : bool := 5 <=? length (split chunk).

Definition flush : segmenter -> segmenter := flush_with five_words.
Definition step : segmenter -> str -> segmenter := step_with five_words.
Definition split_chunks (text : str) : list str := segment_with five_words text.

(** The candidate chunks: every accumulator that [flush] joins, whether or
    not it passes the word count. *)
Definition candidates (text : str) : list str :=
  segment_with (fun _ => true) text.

(** ** Tokenizer *)

Definition STOPWORDS : list str :=
  map lit
     ["a"; "about"; "above"; "after"; "again"; "against"; "all"; "am";
     "an"; "and"; "any"; "are"; "aren't"; "as"; "at"; "be"; "because";
     "been"; "before"; "being"; "below"; "between"; "both"; "but"; "by";
     "can"; "can't"; "could"; "couldn't"; "did"; "didn't"; "do"; "does";
     "doesn't"; "doing"; "don't"; "down"; "during"; "each"; "few"; "for";
     "from"; "further"; "had"; "hadn't"; "has"; "hasn't"; "have";
     "haven't"; "having"; "he"; "he'd"; "he'll"; "he's"; "her"; "here";
     "here's"; "hers"; "herself"; "him"; "himself"; "his"; "how"; "how's";
     "i"; "i'd"; "i'll"; "i'm"; "i've"; "if"; "in"; "into"; "is"; "isn't";
     "it"; "it's"; "its"; "itself"; "let's"; "me"; "more"; "most";
     "mustn't"; "my"; "myself"; "no"; "nor"; "not"; "of"; "off"; "on";
     "once"; "only"; "or"; "other"; "ought"; "our"; "ours"; "ourselves";
     "out"; "over"; "own"; "same"; "shan't"; "she"; "she'd"; "she'll";
     "she's"; "should"; "shouldn't"; "so"; "some"; "such"; "than"; "that";
     "that's"; "the"; "their"; "theirs"; "them"; "themselves"; "then";
     "there"; "there's"; "these"; "they"; "they'd"; "they'll"; "they're";
     "they've"; "this"; "those"; "through"; "to"; "too"; "under"; "until";
     "up"; "very"; "was"; "wasn't"; "we"; "we'd"; "we'll"; "we're";
     "we've"; "were"; "weren't"; "what"; "what's"; "when"; "when's";
     "where"; "where's"; "which"; "while"; "who"; "who's"; "whom"; "why";
     "why's"; "with"; "won't"; "would"; "wouldn't"; "you"; "you'd";
     "you'll"; "you're"; "you've"; "your"; "yours"; "yourself";
     "yourselves"]%string.

Definition is_digit (c : char) : bool := ((48 <=? c) && (c <=? 57))%N.

Definition is_alnum (c : char) : bool :=
  (is_digit c || ((65 <=? c) && (c <=? 90)) || ((97 <=? c) && (c <=? 122)))%N.

(** TOKEN_PATTERN, [[A-Za-z0-9]+(?:'[A-Za-z0-9]+)?]: a maximal run of
    alphanumerics, extended by an apostrophe and a second maximal run when
    both are there. *)
Definition match_token (t : str) : option nat :=
  let n := length (takewhile is_alnum t) in
  match n with
  | O => None
  | S _ =>
      match skipn n t with
      | q :: rest =>
          let k := length (takewhile is_alnum rest) in
          if (q =? APOSTROPHE)%N && (0 <? k) then Some (n + 1 + k) else Some n
      | [] => Some n
      end
  end.

(** [pattern.finditer(s)], as the matched substrings. *)
Fixpoint finditer_from (m : str -> option nat) (skip : nat) (s : str)
  : list str :=
  match s with
  | [] => []
  | _ :: rest =>
      match skip with
      | S k => finditer_from m k rest
      | O =>
          match m s with
          | Some (S n) => firstn (S n) s :: finditer_from m n rest
          | _ => finditer_from m 0 rest
          end
      end
  end.

Definition finditer (m : str -> option nat) (s : str) : list str :=
  finditer_from m 0 s.

(** [token.isdigit()] for a token of TOKEN_PATTERN. *)
Definition isdigit (token : str) : bool :=
  match token with [] => false | _ => forallb is_digit token end.

Definition is_stopword (token : str) : bool := existsb (str_eqb token) STOPWORDS.

Definition tokenize (text : str) : list str :=
  filter (fun token => negb (isdigit token) && negb (is_stopword token))
         (finditer match_token (lower text)).

(** ** Python values used by the builder *)

(** Exceptions and the error monad. *)
Inductive exn :=
| SystemExit (msg : str)
| KeyError.

Inductive result (A : Type) :=
| Return (a : A)
| Raise (e : exn).

Arguments Return {A} a.
Arguments Raise {A} e.

Definition bind {A B : Type} (r : result A) (k : A -> result B) : result B :=
  match r with
  | Return a => k a
  | Raise e => Raise e
  end.

Notation "x <- r ;; k" := (bind r (fun x => k))
  (at level 61, r at next level, right associativity).
Notation "' pat <- r ;; k" := (bind r (fun x => match x with pat => k end))
  (at level 61, pat pattern, r at next level, right associativity).

(** [dict]: an association list in insertion order, one entry per key. *)
Section Dict.
Variables K V : Type.
Variable eq_dec : forall a b : K, {a = b} + {a <> b}.

Definition dict := list (K * V).

Fixpoint dict_get (d : dict) (k : K) : option V :=
  match d with
  | [] => None
  | (k', v) :: d' => if eq_dec k' k then Some v else dict_get d' k
  end.

(** [d[k] = v] *)
Fixpoint dict_set (d : dict) (k : K) (v : V) : dict :=
  match d with
  | [] => [(k, v)]
  | (k', v') :: d' =>
      if eq_dec k' k then (k', v) :: d' else (k', v') :: dict_set d' k v
  end.

Definition keys (d : dict) : list K := map fst d.

(** [d[k]] *)
Definition subscript (d : dict) (k : K) : result V :=
  match dict_get d k with
  | Some v => Return v
  | None => Raise KeyError
  end.
End Dict.

(** [collections.Counter]: a [dict] of counts where a missing key reads 0. *)
Section Counter.
Variable K : Type.
Variable eq_dec : forall a b : K, {a = b} + {a <> b}.

Definition counter_get (c : dict K nat) (k : K) : nat :=
  match dict_get eq_dec c k with
  | Some n => n
  | None => 0
  end.

(** [c[k] += 1] *)
Definition counter_incr (c : dict K nat) (k : K) : dict K nat :=
  dict_set eq_dec c k (counter_get c k + 1).

(** [c.update(ks)], and [Counter(ks)] from the empty counter *)
Definition counter_update (c : dict K nat) (ks : list K) : dict K nat :=
  fold_left counter_incr ks c.
End Counter.

Definition str_eq_dec : forall a b : str, {a = b} + {a <> b} :=
  list_eq_dec N.eq_dec.

(** [s.add(x)] on a set kept as a duplicate-free list. *)
Definition set_add (s : list nat) (x : nat) : list nat :=
  if in_dec Nat.eq_dec x s then s else s ++ [x].

(** What the script takes from its interpreter and its clock: the order in
    which a [set] of ints is iterated, which is some enumeration of its
    elements, and the UTC time, already in ISO format to the second. *)
Record Runtime := {
  set_iter : list nat -> list nat;
  set_iter_perm : forall s, Permutation (set_iter s) s;
  utcnow_isoformat : str
}.

(** The [float] operations of the script. *)
Class PyFloat (F : Type) := {
  f_zero : F;                      (* 0.0 *)
  f_one : F;                       (* 1.0 *)
  f_of_int : nat -> F;             (* an int operand of a float operation *)
  f_int_div : nat -> nat -> F;     (* a / b on ints *)
  f_add : F -> F -> F;
  f_mul : F -> F -> F;
  f_log : F -> F;                  (* math.log *)
  f_sqrt : F -> F;                 (* math.sqrt *)
  f_bool : F -> bool;              (* truth value: false exactly on zero *)
  f_ltb : F -> F -> bool;          (* x < y *)
  f_le : F -> F -> Prop;
  f_lt : F -> F -> Prop
}.

(** The facts about float arithmetic that the numeric properties rest on.
    They are stated on the range the script works in (values that are at
    least 1.0, and their sums from 0.0). *)
Class PyFloatLaws (F : Type) {fl : PyFloat F} : Prop := {
  int_div_ge_one : forall a b, 0 < b -> b <= a -> f_le f_one (f_int_div a b);
  log_nonneg : forall x, f_le f_one x -> f_le f_zero (f_log x);
  add_one_ge_one : forall x, f_le f_zero x -> f_le f_one (f_add x f_one);
  of_int_ge_one : forall n, 1 <= n -> f_le f_one (f_of_int n);
  mul_ge_one :
    forall x y, f_le f_one x -> f_le f_one y -> f_le f_one (f_mul x y);
  add_ge_one :
    forall s t, f_le f_zero s -> f_le f_one t -> f_le f_one (f_add s t);
  sqrt_ge_one : forall s, f_le f_one s -> f_le f_one (f_sqrt s);
  zero_le_zero : f_le f_zero f_zero;
  one_le_one : f_le f_one f_one;
  ge_one_nonneg : forall x, f_le f_one x -> f_le f_zero x;
  ge_one_pos : forall x, f_le f_one x -> f_lt f_zero x
}.

Arguments PyFloatLaws F {fl}.

(** ** Vocabulary and weight builder *)

Section BuildPack.
Context {F : Type} {fl : PyFloat F}.
Variable rt : Runtime.

Record chunk_entry := ChunkEntry {
  text : str;
  tf : list (nat * nat);
  norm : F
}.

Record pack := Pack {
  schema : str;
  source : str;
  created : str;
  vocab : list str;
  idf_pairs : list (nat * F);
  chunks : list chunk_entry
}.

(** [<] on the tuples that are sorted. *)
Definition tf_ltb (a b : nat * nat) : bool :=
  (fst a <? fst b) || ((fst a =? fst b) && (snd a <? snd b)).

Definition idf_ltb (a b : nat * F) : bool :=
  (fst a <? fst b) || ((fst a =? fst b) && f_ltb (snd a) (snd b)).

(** Lines 128-133: the chunks with at least five tokens, and their
    tokens. *)
Definition filtered_chunks (chunks : list str) : list (str * list str) :=
  filter (fun p => negb (length (snd p) <? 5))
         (combine chunks (map tokenize chunks)).

(** Lines 138-140. *)
Definition vocab_counter (filtered : list (str * list str)) : dict str nat :=
  fold_left (fun c p => counter_update str_eq_dec c (snd p)) filtered [].

Definition enumerate (A : Type) (l : list A) : list (nat * A) :=
  combine (seq 0 (length l)) l.

(** Line 143: [{token: idx for idx, token in enumerate(vocab)}] *)
Definition token_to_index (vocab : list str) : dict str nat :=
  fold_left (fun d p => dict_set str_eq_dec d (snd p) (fst p))
            (enumerate vocab) [].

(** Lines 151-154: the loop over [tf_counter.items()]. *)
Fixpoint tf_loop (index : dict str nat) (items : list (str * nat))
    (tf_vector : list (nat * nat)) (seen_indices : list nat)
  : result (list (nat * nat) * list nat) :=
  match items with
  | [] => Return (tf_vector, seen_indices)
  | (token, count) :: more =>
      idx <- subscript str_eq_dec index token ;;
      tf_loop index more (tf_vector ++ [(idx, count)])
              (set_add seen_indices idx)
  end.

(** Lines 147-157: the loop over [filtered_chunks]. *)
Fixpoint tf_pass (index : dict str nat) (filtered : list (str * list str))
    (doc_freq : dict nat nat) (chunk_tf_vectors : list (list (nat * nat)))
  : result (dict nat nat * list (list (nat * nat))) :=
  match filtered with
  | [] => Return (doc_freq, chunk_tf_vectors)
  | (_, tokens) :: more =>
      let tf_counter := counter_update str_eq_dec [] tokens in
      '(tf_vector, seen_indices) <- tf_loop index tf_counter [] [] ;;
      let doc_freq :=
        fold_left (counter_incr Nat.eq_dec) (set_iter rt seen_indices)
                  doc_freq in
      tf_pass index more doc_freq
              (chunk_tf_vectors ++ [sorted tf_ltb tf_vector])
  end.

(** Line 162. *)
Definition idf_of (num_docs df : nat) : F :=
  f_add (f_log (f_int_div (1 + num_docs) (1 + df))) f_one.

(** Lines 160-163. *)
Definition idf_table (num_docs : nat) (doc_freq : dict nat nat)
  : dict nat F :=
  fold_left (fun d p => dict_set Nat.eq_dec d (fst p) (idf_of num_docs (snd p)))
            doc_freq [].

(** Line 165: [(idx, idf_values[idx]) for idx in idf_values] *)
Fixpoint idf_items (idf_values : dict nat F) (ks : list nat)
  : result (list (nat * F)) :=
  match ks with
  | [] => Return []
  | idx :: more =>
      v <- subscript Nat.eq_dec idf_values idx ;;
      rest <- idf_items idf_values more ;;
      Return ((idx, v) :: rest)
  end.

(** Lines 169-174: the loop over one [tf_vector]. *)
Fixpoint norm_loop (idf_values : dict nat F) (tf_vector : list (nat * nat))
    (norm_sum : F) (weighted : list (nat * nat))
  : result (F * list (nat * nat)) :=
  match tf_vector with
  | [] => Return (norm_sum, weighted)
  | (idx, raw_tf) :: more =>
      v <- subscript Nat.eq_dec idf_values idx ;;
      let weight := f_mul (f_of_int raw_tf) v in
      norm_loop idf_values more (f_add norm_sum (f_mul weight weight))
                (weighted ++ [(idx, raw_tf)])
  end.

(** Lines 168-182: the loop over [zip(filtered_chunks, chunk_tf_vectors)]. *)
Fixpoint entries_loop (idf_values : dict nat F)
    (zipped : list ((str * list str) * list (nat * nat)))
    (chunk_entries : list chunk_entry) : result (list chunk_entry) :=
  match zipped with
  | [] => Return chunk_entries
  | ((text, _), tf_vector) :: more =>
      '(norm_sum, weighted) <- norm_loop idf_values tf_vector f_zero [] ;;
      let norm := if f_bool norm_sum then f_sqrt norm_sum else f_one in
      entries_loop idf_values more
                   (chunk_entries ++ [ChunkEntry text weighted norm])
  end.

Definition no_chunks_message : str :=
  lit "No chunks with sufficient tokens were extracted from the PDF.".

Definition build_pack (chunks : list str) : result pack :=
  let filtered := filtered_chunks chunks in
  match filtered with
  | [] => Raise (SystemExit no_chunks_message)
  | _ =>
      let vocab := sorted str_ltb (keys (vocab_counter filtered)) in
      let index := token_to_index vocab in
      '(doc_freq, chunk_tf_vectors) <- tf_pass index filtered [] [] ;;
      let num_docs := length filtered in
      let idf_values := idf_table num_docs doc_freq in
      items <- idf_items idf_values (keys idf_values) ;;
      let idf_pairs := sorted idf_ltb items in
      chunk_entries <-
        entries_loop idf_values (combine filtered chunk_tf_vectors) [] ;;
      Return (Pack (lit "tfidf-rag-pack@v1")
                   (lit "Siddharth_Suresh_Resume.pdf")
                   (utcnow_isoformat rt ++ lit "Z")
                   vocab idf_pairs chunk_entries)
  end.

(** ** Writing the pack *)

(** The files written and the lines printed.  A written file is kept as
    the pack that [json.dump] serialises into it. *)
Record world := World {
  files : dict str pack;
  stdout : list str
}.

Definition write_pack (p : pack) (output_path : str) (w : world) : world :=
  World (dict_set str_eq_dec (files w) output_path p) (stdout w).

(** [str(n)] for an int that is not negative. *)
Definition str_of_nat (n : nat) : str :=
  lit (DecimalString.NilEmpty.string_of_uint (Nat.to_uint n)).

Definition saved_message (p : pack) : str :=
  lit "Saved pack with " ++ str_of_nat (length (chunks p))
  ++ lit " chunks, vocab size " ++ str_of_nat (length (vocab p))
  ++ lit ".".

(** [main], from the parsed arguments on.  [pdf_exists] is
    [args.pdf_path.exists()] and [extracted] the outcome of
    [load_pdf_text(args.pdf_path)], both read from the outside. *)
Definition main (pdf_path output_path : str) (pdf_exists : bool)
    (extracted : result str) (w : world) : result unit * world :=
  if negb pdf_exists
  then (Raise (SystemExit (lit "PDF not found: " ++ pdf_path)), w)
  else
    match extracted with
    | Raise e => (Raise e, w)
    | Return raw_text =>
        let normalized := normalize_text raw_text in
        let chunks := split_chunks normalized in
        match build_pack chunks with
        | Raise e => (Raise e, w)
        | Return p =>
            let w := write_pack p output_path w in
            (Return tt,
             World (files w) (stdout w ++ [saved_message p]))
        end
    end.

End BuildPack.

Arguments chunk_entry F : clear implicits.
Arguments pack F : clear implicits.
Arguments world F : clear implicits.

(** ** The real numbers as floats without rounding *)

#[export] Instance R_float : PyFloat R := {
  f_zero := 0%R;
  f_one := 1%R;
  f_of_int := INR;
  f_int_div := fun a b => (INR a / INR b)%R;
  f_add := Rplus;
  f_mul := Rmult;
  f_log := ln;
  f_sqrt := sqrt;
  f_bool := fun x => if Req_dec_T x 0%R then false else true;
  f_ltb := fun x y => if Rlt_dec x y then true else false;
  f_le := Rle;
  f_lt := Rlt
}.

(** A runtime that iterates a set in the order of insertion, and one that
    iterates it backwards. *)
Definition runtime_fifo (now : str) : Runtime :=
  {| set_iter := fun s => s;
     set_iter_perm := fun s => Permutation_refl s;
     utcnow_isoformat := now |}.

Definition runtime_lifo (now : str) : Runtime :=
  {| set_iter := fun s => rev s;
     set_iter_perm := fun s => Permutation_sym (Permutation_rev s);
     utcnow_isoformat := now |}.

(** ** Text extraction *)

(** What the two PDF libraries do, as far as [load_pdf_text] can tell. *)
Inductive page_outcome :=
| PageText (t : option str)   (* [page.extract_text()] returns a str or None *)
| PageRaises.                 (* it raises *)

Inductive pypdf2_outcome :=
| PyPDF2Missing               (* ModuleNotFoundError *)
| PyPDF2Fails (err : str)     (* another exception, not of a page *)
| PyPDF2Pages (pages : list page_outcome).

Inductive pdfminer_outcome :=
| PdfminerMissing             (* ModuleNotFoundError *)
| PdfminerDone (r : result str).   (* [extract_text] returns or raises *)

(** Lines 47-52: the texts of the pages; [None] counts as the empty string,
    and a page that raises is passed over. *)
Fixpoint page_texts (pages : list page_outcome) : list str :=
  match pages with
  | [] => []
  | PageText (Some t) :: more => t :: page_texts more
  | PageText None :: more => [] :: page_texts more
  | PageRaises :: more => page_texts more
  end.

Definition no_backend_message : str :=
  lit "Neither PyPDF2 nor pdfminer.six is available. Install one of them first.".

(** [load_pdf_text]: the outcome and the lines written to stderr. *)
Definition load_pdf_text (primary : pypdf2_outcome)
    (fallback : pdfminer_outcome) (stderr : list str)
  : result str * list str :=
  let '(found, stderr) :=
    match primary with
    | PyPDF2Pages pages =>
        let text := join [LF] (page_texts pages) in
        (match strip text with [] => None | _ => Some text end, stderr)
    | PyPDF2Missing => (None, stderr)
    | PyPDF2Fails err =>
        (None, stderr ++ [lit "[warn] PyPDF2 failed: " ++ err ++ [LF]])
    end in
  match found with
  | Some text => (Return text, stderr)
  | None =>
      match fallback with
      | PdfminerMissing => (Raise (SystemExit no_backend_message), stderr)
      | PdfminerDone r => (r, stderr)
      end
  end.

(** * Vocabulary of the properties *)

(** Pairs in strictly increasing order of their keys, and the order
    [sorted] asks for on pairs whose second components compare by [vltb]. *)
Definition key_lt {V : Type} (a b : nat * V) : Prop := fst a < fst b.

Definition pair_ltb {V : Type} (vltb : V -> V -> bool) (a b : nat * V) : bool :=
  (fst a <? fst b) || ((fst a =? fst b) && vltb (snd a) (snd b)).

(** A counter as the script builds them: one entry per key, and no entry
    with count zero. *)
Definition counter_ok {K : Type} (eq_dec : forall a b : K, {a = b} + {a <> b})
    (c : dict K nat) : Prop :=
  NoDup (keys c) /\ forall k, In k (keys c) <-> 0 < counter_get eq_dec c k.

(** [index[token]] when the key is there. *)
Definition index_of (index : dict str nat) (token : str) : nat :=
  match dict_get str_eq_dec index token with
  | Some idx => idx
  | None => 0
  end.

(** The [tf_vector] of a chunk before it is sorted: one pair for each
    distinct token, in the order of first occurrence. *)
Definition tf_items (index : dict str nat) (tokens : list str)
  : list (nat * nat) :=
  map (fun it => (index_of index (fst it), snd it))
      (counter_update str_eq_dec [] tokens).

Definition tf_vectors (index : dict str nat) (filtered : list (str * list str))
  : list (list (nat * nat)) :=
  map (fun p => sorted (pair_ltb Nat.ltb) (tf_items index (snd p))) filtered.

(** Whether a tf vector has the index, with a count that is not zero. *)
Definition has_index (idx : nat) (tfv : list (nat * nat)) : bool :=
  existsb (fun p => (fst p =? idx) && negb (snd p =? 0)) tfv.

(** The document frequency of an index: in how many tf vectors it is. *)
Definition df_count (idx : nat) (tfvs : list (list (nat * nat))) : nat :=
  length (filter (has_index idx) tfvs).

(** Whether a text that follows [k] line feeds holds three line feeds in a
    row, those [k] included. *)
Fixpoint blank_run (k : nat) (s : str) : bool :=
  match s with
  | [] => false
  | c :: rest =>
      if (c =? LF)%N then (2 <=? k) || blank_run (S k) rest
      else blank_run 0 rest
  end.

(** A carriage return is always followed by a line feed. *)
Fixpoint crlf_only (s : str) : bool :=
  match s with
  | [] => true
  | c :: rest =>
      (if (c =? CR)%N then startswith rest [LF] else true) && crlf_only rest
  end.

Section PackVocabulary.
Context {F : Type} {fl : PyFloat F}.

(** How a reader of the pack finds the idf of an index. *)
Definition idf_lookup (pairs : list (nat * F)) (idx : nat) : F :=
  match dict_get Nat.eq_dec pairs idx with
  | Some v => v
  | None => f_zero
  end.

(** The sum of the squares of [raw_tf * idf], added up from 0.0 in the
    order of the tf vector. *)
Definition weighted_sum (idf : nat -> F) (tfv : list (nat * nat)) : F :=
  fold_left (fun acc p =>
               let weight := f_mul (f_of_int (snd p)) (idf (fst p)) in
               f_add acc (f_mul weight weight))
            tfv f_zero.

Definition norm_of (idf : nat -> F) (tfv : list (nat * nat)) : F :=
  let s := weighted_sum idf tfv in
  if f_bool s then f_sqrt s else f_one.

(** The entry of a surviving chunk with its tf vector. *)
Definition entry_of (idf_values : dict nat F)
    (z : (str * list str) * list (nat * nat)) : chunk_entry F :=
  ChunkEntry (fst (fst z)) (snd z) (norm_of (idf_lookup idf_values) (snd z)).

(** The fields of a pack that do not depend on the clock. *)
Definition index_fields (p : pack F)
  : list str * list (nat * F) * list (list (nat * nat)) :=
  (vocab p, idf_pairs p, map (@tf F) (chunks p)).

Definition on_result {A B : Type} (f : A -> B) (r : result A) : result B :=
  match r with
  | Return a => Return (f a)
  | Raise e => Raise e
  end.
End PackVocabulary.

(** The segmenter that keeps every candidate runs in step with the one that
    tests them with [keep]: same accumulator, and the chunks of the second
    are the candidates that pass. *)
Definition in_step (keep : str -> bool) (st_keep st_all : segmenter) : Prop :=
  seg_current st_keep = seg_current st_all
  /\ seg_chunks st_keep = filter keep (seg_chunks st_all).

(** No line of the accumulator but the first starts with a hyphen. *)
Definition bullet_free_tail (st : segmenter) : Prop :=
  Forall (fun line => startswith line (lit "-") = false)
         (tl (seg_current st)).

(** The example of the bullet segmentation, and one with longer lines. *)
Definition bullet_example : str :=
  lit "Summary" ++ [LF] ++ lit "Did X" ++ [LF] ++ lit "- Built Y" ++ [LF]
  ++ lit "- Shipped Z" ++ [LF; LF] ++ lit "Education" ++ [LF] ++ lit "...".

Definition bullet_example_long : str :=
  lit "Summary of the work" ++ [LF] ++ lit "Did X for them" ++ [LF]
  ++ lit "- Built Y with many new tools" ++ [LF]
  ++ lit "- Shipped Z to all the users" ++ [LF; LF]
  ++ lit "Education" ++ [LF] ++ lit "...".

(** Inputs on which the properties are tried. *)
Definition demo_runtime : Runtime := runtime_fifo (lit "2024-01-01T00:00:00").

Definition demo_chunks : list str :=
  [lit "Python, Rust, Golang, Kotlin and Swift"; lit "too short"].

(** A chunk of one word and five tokens. *)
Definition hyphenated_chunk : str := lit "alpha-beta-gamma-delta-epsilon".

(** Texts of ASCII characters only, as [normalize_text] returns them and
    as [main] hands them to [build_pack]: on these [lower] is
    [str.lower()]. *)
Definition ascii_text (s : str) : bool := forallb is_ascii s.

Definition ascii_chunks (chunk_texts : list str) : bool :=
  forallb ascii_text chunk_texts.

(** A text that neither starts nor ends with white space. *)
Definition trimmed (s : str) : Prop :=
  (forall c, hd_error s = Some c -> isspace c = false)
  /\ (forall c, hd_error (rev s) = Some c -> isspace c = false).

(** Whether two white space characters stand side by side in a text;
    [prev] tells that the text follows a white space character. *)
Fixpoint space_run (prev : bool) (s : str) : bool :=
  match s with
  | [] => false
  | c :: rest =>
      if isspace c then prev || space_run true rest else space_run false rest
  end.

(** Whether a text ends with white space; [prev] is the answer for the
    empty text. *)
Fixpoint ends_space (prev : bool) (s : str) : bool :=
  match s with
  | [] => prev
  | c :: rest => ends_space (isspace c) rest
  end.

(** The chunk that [flush] makes of the lines of the accumulator. *)
Definition chunk_of (current : list str) : str :=
  re_sub match_spaces2 (lit " ") (strip (join (lit " ") current)).

(** A line of the accumulator: a line of the text, stripped, and not
    empty. *)
Definition stripped_line_of (text_lines : list str) (l : str) : Prop :=
  l <> [] /\ exists line, In line text_lines /\ l = strip line.

(** A chunk that the segmenter appends: the lines it joins and the test it
    has passed. *)
Definition chunk_from (keep : str -> bool) (text_lines : list str)
    (chunk : str) : Prop :=
  exists current,
    current <> []
    /\ Forall (stripped_line_of text_lines) current
    /\ chunk = chunk_of current
    /\ keep chunk = true.

(** A digit or a small letter. *)
Definition is_lower_alnum (c : char) : bool :=
  (is_digit c || ((97 <=? c) && (c <=? 122)))%N.

(** What a token looks like: digits and small letters, with at most one
    apostrophe, which stands between two of them. *)
Definition token_shape (token : str) : Prop :=
  exists a b,
    a <> []
    /\ forallb is_lower_alnum a = true
    /\ forallb is_lower_alnum b = true
    /\ (token = a \/ (b <> [] /\ token = a ++ APOSTROPHE :: b)).

(** The words that the segmenter holds: those of its chunks, then those of
    its accumulator. *)
Definition words_of (st : segmenter) : list str :=
  flat_map split (seg_chunks st) ++ flat_map split (seg_current st).

(** A raw text and an empty world on which [main] is tried. *)
Definition demo_raw_text : str :=
  lit "Python, Rust," ++ [CR; LF] ++ lit "Golang, Kotlin and Swift".

Definition demo_world : world R := World [] [].

(** * Properties *)

(** ** Lists *)

Lemma in_takewhile (p : char -> bool) (s : str) (c : char) :
  In c (takewhile p s) -> In c s.
Proof.
  induction s as [|a s IH]; simpl; [tauto|].
  destruct (p a); simpl; [|tauto].
  intros [H|H]; auto.
Qed.

Lemma in_dropwhile (p : char -> bool) (s : str) (c : char) :
  In c (dropwhile p s) -> In c s.
Proof.
  induction s as [|a s IH]; simpl; [tauto|].
  destruct (p a); simpl; auto.
Qed.

Lemma in_strip (s : str) (c : char) : In c (strip s) -> In c s.
Proof.
  unfold strip, rstrip, lstrip. intros H.
  apply in_rev, in_dropwhile in H. apply in_rev in H.
  now apply in_dropwhile in H.
Qed.

(** Every character of [re.sub]'s result is one of the subject or one of the
    replacement. *)
Lemma in_sub_from m repl (c : char) :
  forall s skip, In c (sub_from m repl skip s) -> In c repl \/ In c s.
Proof.
  induction s as [|a s IH]; intros skip; simpl; [tauto|].
  destruct skip as [|k].
  - destruct (m (a :: s)) as [[|n]|]; simpl.
    + intros [H|H]; [auto|]. destruct (IH _ H); auto.
    + rewrite in_app_iff. intros [H|H]; [auto|]. destruct (IH _ H); auto.
    + intros [H|H]; [auto|]. destruct (IH _ H); auto.
  - intros H. destruct (IH _ H); auto.
Qed.

Lemma in_re_sub m repl s (c : char) :
  In c (re_sub m repl s) -> In c repl \/ In c s.
Proof. apply in_sub_from. Qed.

Lemma in_replace_each chars new (c : char) :
  forall s, In c (replace_each chars new s) -> In c new \/ In c s.
Proof.
  unfold replace_each.
  induction chars as [|ch chars IH]; intros s; simpl; [tauto|].
  intros H. destruct (IH _ H) as [H1|H1]; [auto|].
  apply in_re_sub in H1. tauto.
Qed.

(** ** Sorting *)

Section SortedFacts.
Variable A : Type.
Variable ltb : A -> A -> bool.

Lemma insort_perm (x : A) (l : list A) :
  Permutation (insort ltb x l) (x :: l).
Proof.
  induction l as [|y l IH]; simpl; [reflexivity|].
  destruct (ltb y x); [|reflexivity].
  rewrite IH. apply perm_swap.
Qed.

Lemma sorted_perm (l : list A) : Permutation (sorted ltb l) l.
Proof.
  induction l as [|x l IH]; simpl; [reflexivity|].
  rewrite insort_perm. now constructor.
Qed.

Lemma in_sorted (l : list A) (x : A) : In x (sorted ltb l) <-> In x l.
Proof.
  split; apply Permutation_in;
    [apply sorted_perm | apply Permutation_sym, sorted_perm].
Qed.

Lemma length_sorted (l : list A) : length (sorted ltb l) = length l.
Proof. apply Permutation_length, sorted_perm. Qed.
End SortedFacts.

Section KeySorted.
Variable V : Type.
Variable vltb : V -> V -> bool.

Lemma insort_key_sorted (x : nat * V) (l : list (nat * V)) :
  StronglySorted key_lt l ->
  ~ In (fst x) (map fst l) ->
  StronglySorted key_lt (insort (pair_ltb vltb) x l).
Proof.
  induction 1 as [|y l Hs IH Hy]; intros Hx; simpl.
  - repeat constructor.
  - simpl in Hx. unfold pair_ltb at 1.
    destruct (Nat.ltb_spec (fst y) (fst x)) as [Hlt|Hge]; simpl.
    + constructor; [apply IH; tauto|].
      rewrite Forall_forall. intros z Hz.
      apply (Permutation_in _ (insort_perm (pair_ltb vltb) x l)) in Hz.
      destruct Hz as [<-|Hz]; [exact Hlt|].
      rewrite Forall_forall in Hy. now apply Hy.
    + destruct (Nat.eqb_spec (fst y) (fst x)) as [He|Hne]; [tauto|]. simpl.
      assert (Hxy : key_lt x y) by (unfold key_lt; lia).
      constructor; [now constructor|].
      constructor; [exact Hxy|].
      rewrite Forall_forall in Hy |- *. intros z Hz.
      specialize (Hy z Hz). unfold key_lt in *. lia.
Qed.

Lemma sorted_key_sorted (l : list (nat * V)) :
  NoDup (map fst l) -> StronglySorted key_lt (sorted (pair_ltb vltb) l).
Proof.
  induction l as [|x l IH]; simpl; intros Hnd; [constructor|].
  inversion Hnd as [|? ? Hx Hl]; subst.
  apply insort_key_sorted; [auto|].
  intros Hin. apply Hx.
  apply (Permutation_in _ (Permutation_map fst (sorted_perm (pair_ltb vltb) l))).
  exact Hin.
Qed.

(** Two key-sorted lists with the same elements are the same list. *)
Lemma key_sorted_unique (l1 l2 : list (nat * V)) :
  StronglySorted key_lt l1 -> StronglySorted key_lt l2 ->
  (forall p, In p l1 <-> In p l2) -> l1 = l2.
Proof.
  intros H1. revert l2.
  induction H1 as [|a l1 Hs1 IH Ha]; intros l2 H2 Heq.
  - destruct l2 as [|b l2]; [reflexivity|].
    exfalso. apply (proj2 (Heq b)). now left.
  - destruct H2 as [|b l2 Hs2 Hb].
    + exfalso. apply (proj1 (Heq a)). now left.
    + rewrite Forall_forall in Ha, Hb.
      assert (Hab : a = b).
      { destruct (proj1 (Heq a) (or_introl eq_refl)) as [E|Hin]; [auto|].
        destruct (proj2 (Heq b) (or_introl eq_refl)) as [E|Hin']; [auto|].
        specialize (Ha _ Hin'). specialize (Hb _ Hin).
        unfold key_lt in *. lia. }
      subst b. f_equal. apply IH; [exact Hs2|].
      intros p. split; intros Hp.
      * destruct (proj1 (Heq p) (or_intror Hp)) as [E|Hin]; [|exact Hin].
        subst p. specialize (Ha _ Hp). unfold key_lt in Ha. lia.
      * destruct (proj2 (Heq p) (or_intror Hp)) as [E|Hin]; [|exact Hin].
        subst p. specialize (Hb _ Hp). unfold key_lt in Hb. lia.
Qed.

Lemma sorted_unique (l1 l2 : list (nat * V)) :
  NoDup (map fst l1) -> NoDup (map fst l2) ->
  (forall p, In p l1 <-> In p l2) ->
  sorted (pair_ltb vltb) l1 = sorted (pair_ltb vltb) l2.
Proof.
  intros N1 N2 Heq.
  apply key_sorted_unique; try now apply sorted_key_sorted.
  intros p. rewrite !in_sorted. apply Heq.
Qed.
End KeySorted.

(** ** Dictionaries and counters *)

Section DictFacts.
Variables K V : Type.
Variable eq_dec : forall a b : K, {a = b} + {a <> b}.
Implicit Types (d : dict K V) (k : K) (v : V).

Lemma dict_get_set_eq d k v : dict_get eq_dec (dict_set eq_dec d k v) k = Some v.
Proof.
  induction d as [|[k' v'] d IH]; simpl.
  - destruct (eq_dec k k); congruence.
  - destruct (eq_dec k' k) as [E|E]; simpl.
    + destruct (eq_dec k' k); congruence.
    + destruct (eq_dec k' k); [contradiction|exact IH].
Qed.

Lemma dict_get_set_neq d k v k' :
  k <> k' -> dict_get eq_dec (dict_set eq_dec d k v) k' = dict_get eq_dec d k'.
Proof.
  intros Hne. induction d as [|[k0 v0] d IH]; simpl.
  - destruct (eq_dec k k'); congruence.
  - destruct (eq_dec k0 k) as [E|E]; simpl.
    + subst k0. destruct (eq_dec k k'); congruence.
    + destruct (eq_dec k0 k'); [reflexivity|exact IH].
Qed.

Lemma keys_dict_set d k v :
  keys (dict_set eq_dec d k v)
  = if in_dec eq_dec k (keys d) then keys d else keys d ++ [k].
Proof.
  induction d as [|[k0 v0] d IH]; simpl; [reflexivity|].
  destruct (eq_dec k0 k) as [E|E]; simpl.
  - reflexivity.
  - unfold keys in *. rewrite IH.
    destruct (in_dec eq_dec k (map fst d)); reflexivity.
Qed.

Lemma in_keys_dict_set d k v k' :
  In k' (keys (dict_set eq_dec d k v)) <-> k' = k \/ In k' (keys d).
Proof.
  rewrite keys_dict_set. destruct (in_dec eq_dec k (keys d)) as [Hin|Hin].
  - split; [tauto|]. intros [->|H]; auto.
  - rewrite in_app_iff. simpl. split; [intros [H|[H|[]]]|intros [H|H]]; auto.
Qed.

Lemma nodup_keys_dict_set d k v :
  NoDup (keys d) -> NoDup (keys (dict_set eq_dec d k v)).
Proof.
  intros Hnd. rewrite keys_dict_set.
  destruct (in_dec eq_dec k (keys d)) as [Hin|Hin]; [exact Hnd|].
  apply NoDup_app; [exact Hnd | repeat constructor; simpl; tauto |].
  intros x Hx [<-|[]]. contradiction.
Qed.

Lemma dict_get_none d k : dict_get eq_dec d k = None <-> ~ In k (keys d).
Proof.
  induction d as [|[k0 v0] d IH]; simpl; [tauto|].
  destruct (eq_dec k0 k) as [E|E].
  - split; [discriminate|]. intros H. exfalso. auto.
  - rewrite IH. unfold keys. tauto.
Qed.

Lemma dict_get_in d k v : dict_get eq_dec d k = Some v -> In (k, v) d.
Proof.
  induction d as [|[k0 v0] d IH]; simpl; [discriminate|].
  destruct (eq_dec k0 k) as [E|E].
  - intros [= <-]. subst. now left.
  - auto.
Qed.

Lemma in_dict_get d k v :
  NoDup (keys d) -> In (k, v) d -> dict_get eq_dec d k = Some v.
Proof.
  induction d as [|[k0 v0] d IH]; simpl; [tauto|].
  intros Hnd [H|H].
  - injection H as -> ->. destruct (eq_dec k k); congruence.
  - inversion Hnd as [|? ? Hk Hd]; subst.
    destruct (eq_dec k0 k) as [E|E]; [|auto].
    subst k0. exfalso. apply Hk. change k with (fst (k, v)).
    now apply in_map.
Qed.

Lemma in_keys_get d k : In k (keys d) -> exists v, dict_get eq_dec d k = Some v.
Proof.
  intros Hin. destruct (dict_get eq_dec d k) as [v|] eqn:E; [eauto|].
  apply dict_get_none in E. contradiction.
Qed.

(** Looking a key up sees the same thing in any arrangement of the same
    entries. *)
Lemma dict_get_perm d d' k :
  NoDup (keys d) -> Permutation d d' ->
  dict_get eq_dec d' k = dict_get eq_dec d k.
Proof.
  intros Hnd Hp.
  assert (Hnd' : NoDup (keys d')).
  { eapply Permutation_NoDup; [|exact Hnd]. now apply Permutation_map. }
  destruct (dict_get eq_dec d k) as [v|] eqn:E.
  - apply in_dict_get; [exact Hnd'|].
    eapply Permutation_in; [exact Hp|]. now apply dict_get_in.
  - apply dict_get_none. apply dict_get_none in E. intros Hin. apply E.
    eapply Permutation_in; [|exact Hin].
    apply Permutation_sym. now apply Permutation_map.
Qed.
End DictFacts.

Section CounterFacts.
Variable K : Type.
Variable eq_dec : forall a b : K, {a = b} + {a <> b}.
Implicit Types (c : dict K nat) (k : K).

Lemma counter_ok_nil : counter_ok eq_dec [].
Proof.
  split; [constructor|]. intros k. unfold counter_get. simpl.
  split; [tauto|lia].
Qed.

Lemma counter_get_incr c k k' :
  counter_get eq_dec (counter_incr eq_dec c k) k'
  = counter_get eq_dec c k' + if eq_dec k k' then 1 else 0.
Proof.
  unfold counter_incr, counter_get at 1.
  destruct (eq_dec k k') as [<-|Hne].
  - now rewrite dict_get_set_eq.
  - rewrite dict_get_set_neq by exact Hne. unfold counter_get. lia.
Qed.

Lemma counter_ok_incr c k : counter_ok eq_dec c -> counter_ok eq_dec (counter_incr eq_dec c k).
Proof.
  intros [Hnd Hpos]. split.
  - now apply nodup_keys_dict_set.
  - intros k'. rewrite counter_get_incr. unfold counter_incr.
    rewrite in_keys_dict_set, Hpos.
    destruct (eq_dec k k') as [<-|Hne]; [intuition lia|].
    split; [intros [H|H]; [congruence|lia]|intros H; right; lia].
Qed.

Lemma counter_ok_update ks : forall c,
  counter_ok eq_dec c -> counter_ok eq_dec (counter_update eq_dec c ks).
Proof.
  unfold counter_update.
  induction ks as [|k ks IH]; intros c Hc; simpl; [exact Hc|].
  apply IH. now apply counter_ok_incr.
Qed.

Lemma counter_get_update ks : forall c k,
  counter_get eq_dec (counter_update eq_dec c ks) k
  = counter_get eq_dec c k + count_occ eq_dec ks k.
Proof.
  unfold counter_update.
  induction ks as [|k0 ks IH]; intros c k; simpl; [lia|].
  rewrite IH, counter_get_incr.
  destruct (eq_dec k0 k); lia.
Qed.

Lemma in_keys_update ks c k :
  counter_ok eq_dec c ->
  In k (keys (counter_update eq_dec c ks)) <-> In k (keys c) \/ In k ks.
Proof.
  intros Hc.
  rewrite (proj2 (counter_ok_update ks Hc)), counter_get_update.
  rewrite (proj2 Hc), (count_occ_In eq_dec). lia.
Qed.

(** A stored count is the count that is read, and is not zero. *)
Lemma counter_entry c k n :
  counter_ok eq_dec c -> In (k, n) c -> counter_get eq_dec c k = n /\ 0 < n.
Proof.
  intros [Hnd Hpos] Hin.
  assert (E : counter_get eq_dec c k = n).
  { unfold counter_get. now rewrite (in_dict_get eq_dec _ _ _ Hnd Hin). }
  split; [exact E|]. rewrite <- E. apply Hpos.
  change k with (fst (k, n)). now apply in_map.
Qed.
End CounterFacts.

Section DictMore.
Variables K V : Type.
Variable eq_dec : forall a b : K, {a = b} + {a <> b}.

Lemma in_dict_set (d : dict K V) k v p :
  In p (dict_set eq_dec d k v) -> p = (k, v) \/ In p d.
Proof.
  induction d as [|[k0 v0] d IH]; simpl.
  - intros [<-|[]]; auto.
  - destruct (eq_dec k0 k) as [E|E]; simpl.
    + intros [<-|H]; [left; congruence|auto].
    + intros [H|H]; [auto|]. destruct (IH H); auto.
Qed.

Lemma dict_set_fresh (d : dict K V) k v :
  ~ In k (keys d) -> dict_set eq_dec d k v = d ++ [(k, v)].
Proof.
  induction d as [|[k0 v0] d IH]; simpl; intros H; [reflexivity|].
  destruct (eq_dec k0 k) as [E|E]; [exfalso; auto|].
  f_equal. apply IH. tauto.
Qed.

(** Filling an empty dict from entries with distinct keys keeps them as
    they come. *)
Lemma fold_dict_set (W : Type) (g : W -> V) (l : list (K * W)) :
  forall acc : dict K V,
    NoDup (keys acc ++ keys l) ->
    fold_left (fun d p => dict_set eq_dec d (fst p) (g (snd p))) l acc
    = acc ++ map (fun p => (fst p, g (snd p))) l.
Proof.
  induction l as [|[k w] l IH]; intros acc Hnd; simpl.
  - now rewrite app_nil_r.
  - simpl in Hnd. rewrite dict_set_fresh.
    + rewrite IH.
      * now rewrite <- app_assoc.
      * unfold keys in *. rewrite map_app, <- app_assoc. exact Hnd.
    + apply NoDup_remove_2 in Hnd. rewrite in_app_iff in Hnd. tauto.
Qed.
End DictMore.

Lemma map_snd_combine (A B : Type) (l1 : list A) : forall l2 : list B,
  length l1 = length l2 -> map snd (combine l1 l2) = l2.
Proof.
  induction l1 as [|a l1 IH]; intros [|b l2]; simpl; try discriminate; auto.
  intros [= H]. now rewrite IH.
Qed.

Lemma map_fst_combine (A B : Type) (l1 : list A) : forall l2 : list B,
  length l1 = length l2 -> map fst (combine l1 l2) = l1.
Proof.
  induction l1 as [|a l1 IH]; intros [|b l2]; simpl; try discriminate; auto.
  intros [= H]. now rewrite IH.
Qed.

(** ** Sets of indices *)

Lemma in_set_add s x y : In y (set_add s x) <-> In y s \/ y = x.
Proof.
  unfold set_add. destruct (in_dec Nat.eq_dec x s) as [H|H].
  - split; [auto|]. intros [H1| ->]; auto.
  - rewrite in_app_iff. simpl. intuition.
Qed.

Lemma nodup_set_add s x : NoDup s -> NoDup (set_add s x).
Proof.
  intros Hnd. unfold set_add. destruct (in_dec Nat.eq_dec x s) as [H|H]; auto.
  apply NoDup_app; [exact Hnd | repeat constructor; simpl; tauto |].
  intros y Hy [<-|[]]. contradiction.
Qed.

Lemma fold_set_add l : forall s,
  NoDup s ->
  NoDup (fold_left set_add l s)
  /\ forall y, In y (fold_left set_add l s) <-> In y s \/ In y l.
Proof.
  induction l as [|x l IH]; intros s Hnd; simpl.
  - split; [exact Hnd|]. tauto.
  - destruct (IH _ (nodup_set_add x Hnd)) as [H1 H2]. split; [exact H1|].
    intros y. rewrite H2, in_set_add. intuition.
Qed.

(** ** The vocabulary and its index *)

Lemma index_fold_keys (ps : list (nat * str)) : forall (d : dict str nat) k,
  In k (keys (fold_left (fun d p => dict_set str_eq_dec d (snd p) (fst p)) ps d))
  <-> In k (keys d) \/ In k (map snd ps).
Proof.
  induction ps as [|p ps IH]; intros d k; simpl; [tauto|].
  rewrite IH, in_keys_dict_set. intuition.
Qed.

Lemma index_fold_entries (ps : list (nat * str)) :
  forall (d : dict str nat) k v,
    In (k, v)
       (fold_left (fun d p => dict_set str_eq_dec d (snd p) (fst p)) ps d) ->
    In (k, v) d \/ In (v, k) ps.
Proof.
  induction ps as [|[i t] ps IH]; intros d k v; simpl; [tauto|].
  intros H. destruct (IH _ _ _ H) as [H1|H1]; [|auto].
  apply in_dict_set in H1. destruct H1 as [E|H1]; [|auto].
  injection E as -> ->. auto.
Qed.

(** Every token of the vocabulary has an index, and the index is a position
    of the vocabulary that holds the token. *)
Lemma token_to_index_lookup (vocab : list str) (token : str) :
  In token vocab ->
  exists idx,
    dict_get str_eq_dec (token_to_index vocab) token = Some idx
    /\ idx < length vocab /\ nth_error vocab idx = Some token.
Proof.
  intros Hin. unfold token_to_index.
  set (ps := enumerate vocab).
  assert (Hk : In token (keys (fold_left
            (fun d p => dict_set str_eq_dec d (snd p) (fst p)) ps []))).
  { apply index_fold_keys. right. unfold ps, enumerate.
    rewrite map_snd_combine; [exact Hin|apply length_seq]. }
  destruct (in_keys_get str_eq_dec _ _ Hk) as [idx Hidx].
  exists idx. split; [exact Hidx|].
  apply dict_get_in, index_fold_entries in Hidx.
  destruct Hidx as [[]|Hidx]. unfold ps, enumerate in Hidx.
  assert (Hlt : idx < length vocab).
  { apply in_combine_l in Hidx. apply in_seq in Hidx. lia. }
  split; [exact Hlt|].
  destruct (In_nth _ _ (0, []) Hidx) as [n [Hn Hnth]].
  rewrite length_combine, length_seq, Nat.min_id in Hn.
  rewrite combine_nth in Hnth by apply length_seq.
  rewrite seq_nth in Hnth by exact Hn. injection Hnth as <- <-.
  now apply nth_error_nth'.
Qed.

Lemma fold_counter_update (filtered : list (str * list str)) :
  forall c : dict str nat,
    counter_ok str_eq_dec c ->
    let r := fold_left (fun c p => counter_update str_eq_dec c (snd p))
                       filtered c in
    counter_ok str_eq_dec r
    /\ forall token, In token (keys r)
                     <-> In token (keys c)
                         \/ exists p, In p filtered /\ In token (snd p).
Proof.
  induction filtered as [|p filtered IH]; intros c Hc; simpl.
  - split; [exact Hc|]. intros token. split; [auto|].
    intros [H|[p [[] _]]]. exact H.
  - destruct (IH _ (counter_ok_update (snd p) Hc)) as [H1 H2].
    split; [exact H1|]. intros token.
    rewrite H2, (in_keys_update _ _ Hc). split.
    + intros [[H|H]|[q [Hq Ht]]]; eauto.
    + intros [H|[q [[<-|Hq] Ht]]]; eauto.
Qed.

Lemma vocab_counter_keys (filtered : list (str * list str)) (token : str) :
  In token (keys (vocab_counter filtered))
  <-> exists p, In p filtered /\ In token (snd p).
Proof.
  unfold vocab_counter.
  destruct (fold_counter_update filtered (counter_ok_nil str_eq_dec))
    as [_ H].
  rewrite H. simpl. split; [intros [[]|H1]; exact H1|auto].
Qed.

(** ** Term frequencies and document frequencies *)

Lemma tf_items_counts index tokens p :
  In p (tf_items index tokens) -> 0 < snd p.
Proof.
  unfold tf_items. rewrite in_map_iff. intros [[token n] [<- Hin]]. simpl.
  eapply counter_entry; [|exact Hin].
  apply counter_ok_update, counter_ok_nil.
Qed.

Lemma tf_items_indices index tokens idx :
  In idx (map fst (tf_items index tokens))
  <-> exists token, In token tokens /\ index_of index token = idx.
Proof.
  unfold tf_items. rewrite map_map. simpl. rewrite in_map_iff. split.
  - intros [[token n] [<- Hin]]. exists token. split; [|reflexivity].
    apply (in_map fst) in Hin.
    apply (in_keys_update _ _ (counter_ok_nil str_eq_dec)) in Hin.
    destruct Hin as [[]|Hin]. exact Hin.
  - intros [token [Hin <-]].
    assert (Hk : In token (keys (counter_update str_eq_dec [] tokens))).
    { apply (in_keys_update _ _ (counter_ok_nil str_eq_dec)). now right. }
    unfold keys in Hk. rewrite in_map_iff in Hk.
    destruct Hk as [[t n] [E Hp]]. simpl in E. subst t.
    exists (token, n). auto.
Qed.

Lemma has_index_spec idx tfv :
  has_index idx tfv = true <-> exists c, In (idx, c) tfv /\ c <> 0.
Proof.
  unfold has_index. rewrite existsb_exists. split.
  - intros [[i c] [Hin H]]. simpl in H.
    apply andb_prop in H. destruct H as [H1 H2].
    apply Nat.eqb_eq in H1. subst i.
    exists c. split; [exact Hin|].
    destruct (Nat.eqb_spec c 0); [discriminate|assumption].
  - intros [c [Hin Hc]]. exists (idx, c). split; [exact Hin|]. simpl.
    rewrite Nat.eqb_refl. simpl.
    destruct (Nat.eqb_spec c 0); [contradiction|reflexivity].
Qed.

(** In the sorted tf vector of a chunk, the indices with a count that is not
    zero are the indices of its tokens. *)
Lemma has_index_tf_items index tokens idx :
  has_index idx (sorted (pair_ltb Nat.ltb) (tf_items index tokens)) = true
  <-> In idx (map fst (tf_items index tokens)).
Proof.
  rewrite has_index_spec. split.
  - intros [c [Hin _]]. apply in_sorted in Hin.
    change idx with (fst (idx, c)). now apply in_map.
  - rewrite in_map_iff. intros [[i c] [E Hin]]. simpl in E. subst i.
    exists c. split; [now apply in_sorted|].
    apply tf_items_counts in Hin. simpl in Hin. lia.
Qed.

Lemma df_count_cons idx tfv tfvs :
  df_count idx (tfv :: tfvs)
  = (if has_index idx tfv then 1 else 0) + df_count idx tfvs.
Proof. unfold df_count. simpl. now destruct (has_index idx tfv). Qed.

Lemma df_count_le idx tfvs : df_count idx tfvs <= length tfvs.
Proof. apply filter_length_le. Qed.

Lemma df_count_pos idx tfvs :
  0 < df_count idx tfvs <-> exists tfv, In tfv tfvs /\ has_index idx tfv = true.
Proof.
  unfold df_count. split.
  - intros H. destruct (filter (has_index idx) tfvs) as [|tfv l] eqn:E;
      [simpl in H; lia|].
    exists tfv. apply filter_In. rewrite E. now left.
  - intros [tfv Hin]. apply filter_In in Hin.
    destruct (filter (has_index idx) tfvs); [destruct Hin|simpl; lia].
Qed.

Lemma count_occ_nodup (l : list nat) (x : nat) :
  NoDup l ->
  count_occ Nat.eq_dec l x = if in_dec Nat.eq_dec x l then 1 else 0.
Proof.
  intros Hnd. destruct (in_dec Nat.eq_dec x l) as [H|H].
  - now apply NoDup_count_occ'.
  - now apply count_occ_not_In.
Qed.

Unset Implicit Arguments.

Section BuildFacts.
Context {F : Type} {fl : PyFloat F}.
Variable rt : Runtime.

Lemma tf_loop_ok (index : dict str nat) (items : list (str * nat)) :
  (forall it, In it items -> In (fst it) (keys index)) ->
  forall tf_vector seen,
    tf_loop index items tf_vector seen
    = Return
        (tf_vector ++ map (fun it => (index_of index (fst it), snd it)) items,
         fold_left set_add (map (fun it => index_of index (fst it)) items)
                   seen).
Proof.
  induction items as [|[token count] items IH]; intros Hk tfv seen; simpl.
  - now rewrite app_nil_r.
  - destruct (in_keys_get str_eq_dec index token) as [idx Hidx].
    { apply (Hk (token, count)). now left. }
    unfold subscript, index_of. rewrite Hidx. simpl.
    rewrite IH by (intros it Hit; apply Hk; now right).
    now rewrite <- app_assoc.
Qed.

(** What one chunk adds to [doc_freq], whatever the order in which its
    set of indices is iterated. *)
Lemma doc_freq_step (index : dict str nat) (tokens : list str)
    (doc_freq : dict nat nat) (idx : nat) :
  let seen :=
    fold_left set_add
      (map (fun it => index_of index (fst it))
           (counter_update str_eq_dec [] tokens)) [] in
  counter_get Nat.eq_dec
    (fold_left (counter_incr Nat.eq_dec) (set_iter rt seen) doc_freq) idx
  = counter_get Nat.eq_dec doc_freq idx
    + if has_index idx (sorted (pair_ltb Nat.ltb) (tf_items index tokens))
      then 1 else 0.
Proof.
  intros seen.
  change (fold_left (counter_incr Nat.eq_dec) (set_iter rt seen) doc_freq)
    with (counter_update Nat.eq_dec doc_freq (set_iter rt seen)).
  rewrite counter_get_update. f_equal.
  destruct (fold_set_add
              (map (fun it => index_of index (fst it))
                   (counter_update str_eq_dec [] tokens))
              (NoDup_nil nat)) as [Hnd Hin].
  fold seen in Hnd, Hin.
  rewrite (proj1 (Permutation_count_occ Nat.eq_dec _ _)
                 (set_iter_perm rt seen)).
  rewrite (count_occ_nodup idx Hnd).
  assert (Hiff : In idx seen <-> In idx (map fst (tf_items index tokens))).
  { rewrite Hin. unfold tf_items. rewrite map_map. simpl. tauto. }
  destruct (in_dec Nat.eq_dec idx seen) as [H|H];
    destruct (has_index idx _) eqn:E; try reflexivity.
  - apply Hiff, has_index_tf_items in H. congruence.
  - apply has_index_tf_items, Hiff in E. contradiction.
Qed.

Lemma tf_pass_spec (index : dict str nat) (filtered : list (str * list str)) :
  (forall p token,
      In p filtered -> In token (snd p) -> In token (keys index)) ->
  forall doc_freq vs,
    counter_ok Nat.eq_dec doc_freq ->
    exists doc_freq',
      tf_pass rt index filtered doc_freq vs
      = Return (doc_freq', vs ++ tf_vectors index filtered)
      /\ counter_ok Nat.eq_dec doc_freq'
      /\ forall idx,
          counter_get Nat.eq_dec doc_freq' idx
          = counter_get Nat.eq_dec doc_freq idx
            + df_count idx (tf_vectors index filtered).
Proof.
  induction filtered as [|[c tokens] filtered IH]; intros Hk df vs Hdf.
  - exists df. simpl. rewrite app_nil_r. split; [reflexivity|].
    split; [exact Hdf|]. intros idx. unfold df_count. simpl. lia.
  - simpl tf_pass. rewrite tf_loop_ok.
    2:{ intros it Hit. apply (Hk (c, tokens)); [now left|]. simpl.
        apply (in_map fst) in Hit.
        apply (in_keys_update _ _ (counter_ok_nil str_eq_dec)) in Hit.
        destruct Hit as [[]|Hit]. exact Hit. }
    simpl bind.
    set (seen := fold_left set_add _ []).
    set (df1 := fold_left (counter_incr Nat.eq_dec) (set_iter rt seen) df).
    assert (Hdf1 : counter_ok Nat.eq_dec df1).
    { unfold df1. apply (counter_ok_update (set_iter rt seen) Hdf). }
    destruct (IH (fun p token Hp => Hk p token (or_intror Hp))
                 df1 (vs ++ [sorted tf_ltb (tf_items index tokens)]) Hdf1)
      as [df' [Hrun [Hok Hget]]].
    exists df'. split; [|split; [exact Hok|]].
    + unfold tf_items in Hrun. rewrite Hrun. f_equal. f_equal.
      rewrite <- app_assoc. reflexivity.
    + intros idx. rewrite Hget. unfold df1, seen.
      rewrite doc_freq_step. simpl tf_vectors. rewrite df_count_cons.
      simpl. lia.
Qed.

(** ** The idf table *)

Lemma idf_table_eq (num_docs : nat) (doc_freq : dict nat nat) :
  NoDup (keys doc_freq) ->
  idf_table num_docs doc_freq
  = map (fun p => (fst p, idf_of num_docs (snd p))) doc_freq.
Proof.
  intros Hnd. unfold idf_table.
  now rewrite (fold_dict_set Nat.eq_dec (idf_of num_docs) doc_freq []).
Qed.

Lemma idf_items_ok (idf_values : dict nat F) :
  NoDup (keys idf_values) ->
  forall l, incl l idf_values -> idf_items idf_values (keys l) = Return l.
Proof.
  intros Hnd. induction l as [|[idx v] l IH]; intros Hl; simpl.
  - reflexivity.
  - unfold subscript.
    rewrite (in_dict_get Nat.eq_dec idf_values idx v Hnd)
      by (apply Hl; now left).
    simpl. fold (keys l). rewrite IH; [reflexivity|].
    intros p Hp. apply Hl. now right.
Qed.

(** ** Norms and chunk entries *)

Lemma norm_loop_ok (idf_values : dict nat F) (tfv : list (nat * nat)) :
  (forall p, In p tfv -> In (fst p) (keys idf_values)) ->
  forall norm_sum weighted,
    norm_loop idf_values tfv norm_sum weighted
    = Return
        (fold_left
           (fun acc p =>
              let weight :=
                f_mul (f_of_int (snd p)) (idf_lookup idf_values (fst p)) in
              f_add acc (f_mul weight weight))
           tfv norm_sum,
         weighted ++ tfv).
Proof.
  induction tfv as [|[idx raw_tf] tfv IH]; intros Hk s w;
    cbn [norm_loop fold_left].
  - now rewrite app_nil_r.
  - destruct (in_keys_get Nat.eq_dec idf_values idx) as [v Hv].
    { apply (Hk (idx, raw_tf)). now left. }
    assert (E : idf_lookup idf_values idx = v)
      by (unfold idf_lookup; now rewrite Hv).
    unfold subscript. rewrite Hv. cbn [bind].
    rewrite IH by (intros p Hp; apply Hk; now right).
    rewrite <- E, <- app_assoc. reflexivity.
Qed.

Lemma entries_loop_ok (idf_values : dict nat F)
    (zipped : list ((str * list str) * list (nat * nat))) :
  (forall z p, In z zipped -> In p (snd z) -> In (fst p) (keys idf_values)) ->
  forall chunk_entries,
    entries_loop idf_values zipped chunk_entries
    = Return (chunk_entries ++ map (entry_of idf_values) zipped).
Proof.
  induction zipped as [|[[c tokens] tfv] zipped IH]; intros Hk acc;
    cbn [entries_loop map].
  - now rewrite app_nil_r.
  - rewrite norm_loop_ok
      by (intros p Hp; apply (Hk (c, tokens, tfv) p); [now left|exact Hp]).
    cbn [bind]. rewrite IH by (intros z p Hz; apply Hk; now right).
    rewrite <- app_assoc. reflexivity.
Qed.

(** ** The tf vectors of the surviving chunks *)

Lemma in_combine_tokenize (chunks : list str) (p : str * list str) :
  In p (combine chunks (map tokenize chunks))
  <-> In (fst p) chunks /\ snd p = tokenize (fst p).
Proof.
  induction chunks as [|c chunks IH]; simpl; [tauto|].
  rewrite IH. destruct p as [c' tokens]. simpl. split.
  - intros [[= <- <-]|[H1 H2]]; auto.
  - intros [[<-|H1] ->]; auto.
Qed.

Lemma filtered_chunks_spec (chunks : list str) (p : str * list str) :
  In p (filtered_chunks chunks)
  <-> In (fst p) chunks /\ snd p = tokenize (fst p) /\ 5 <= length (snd p).
Proof.
  unfold filtered_chunks. rewrite filter_In, in_combine_tokenize.
  destruct (Nat.ltb_spec (length (snd p)) 5); simpl;
    intuition (discriminate || lia).
Qed.

Lemma map_fst_filtered (chunks : list str) :
  map fst (filtered_chunks chunks)
  = filter (fun c => negb (length (tokenize c) <? 5)) chunks.
Proof.
  unfold filtered_chunks.
  induction chunks as [|c chunks IH]; simpl; [reflexivity|].
  destruct (negb (length (tokenize c) <? 5)); simpl; now rewrite IH.
Qed.

Lemma in_tf_vectors index filtered tfv :
  In tfv (tf_vectors index filtered)
  <-> exists p, In p filtered
                /\ tfv = sorted (pair_ltb Nat.ltb) (tf_items index (snd p)).
Proof.
  unfold tf_vectors. rewrite in_map_iff.
  split; intros [p [H1 H2]]; exists p; auto.
Qed.

Lemma tf_vectors_counts index filtered tfv p :
  In tfv (tf_vectors index filtered) -> In p tfv -> 0 < snd p.
Proof.
  rewrite in_tf_vectors. intros [q [_ ->]] Hp.
  apply in_sorted in Hp. now apply tf_items_counts in Hp.
Qed.

Lemma tf_vectors_has_index index filtered tfv p :
  In tfv (tf_vectors index filtered) -> In p tfv ->
  has_index (fst p) tfv = true.
Proof.
  intros Htfv Hp. apply has_index_spec. exists (snd p).
  split; [now destruct p|].
  apply (tf_vectors_counts _ _ _ _ Htfv) in Hp. lia.
Qed.

(** ** The pack that [build_pack] returns *)

Lemma index_covers_tokens (chunks : list str) :
  let filtered := filtered_chunks chunks in
  let voc := sorted str_ltb (keys (vocab_counter filtered)) in
  forall p token,
    In p filtered -> In token (snd p) ->
    exists idx,
      dict_get str_eq_dec (token_to_index voc) token = Some idx
      /\ idx < length voc /\ nth_error voc idx = Some token.
Proof.
  intros filtered voc p token Hp Ht.
  apply token_to_index_lookup. unfold voc. apply in_sorted.
  apply vocab_counter_keys. eauto.
Qed.

Lemma build_pack_spec (chunks : list str) :
  filtered_chunks chunks <> [] ->
  let filtered := filtered_chunks chunks in
  let voc := sorted str_ltb (keys (vocab_counter filtered)) in
  let tfvs := tf_vectors (token_to_index voc) filtered in
  exists doc_freq,
    counter_ok Nat.eq_dec doc_freq
    /\ (forall idx, counter_get Nat.eq_dec doc_freq idx = df_count idx tfvs)
    /\ build_pack rt chunks
       = Return
           (Pack (lit "tfidf-rag-pack@v1")
                 (lit "Siddharth_Suresh_Resume.pdf")
                 (utcnow_isoformat rt ++ lit "Z")
                 voc
                 (sorted idf_ltb (idf_table (length filtered) doc_freq))
                 (map (entry_of (idf_table (length filtered) doc_freq))
                      (combine filtered tfvs))).
Proof.
  intros Hne filtered voc tfvs.
  assert (Hindex : forall p token,
             In p filtered -> In token (snd p) ->
             In token (keys (token_to_index voc))).
  { intros p token Hp Ht.
    destruct (index_covers_tokens chunks p token Hp Ht) as [idx [Hidx _]].
    destruct (in_dec str_eq_dec token (keys (token_to_index voc)))
      as [H|H]; [exact H|].
    apply (proj2 (dict_get_none str_eq_dec _ _)) in H.
    unfold voc, filtered in H. rewrite Hidx in H. discriminate. }
  destruct (tf_pass_spec (token_to_index voc) filtered Hindex [] []
                         (counter_ok_nil Nat.eq_dec))
    as [doc_freq [Hrun [Hok Hget]]].
  exists doc_freq. split; [exact Hok|]. split.
  { intros idx. rewrite Hget. reflexivity. }
  unfold build_pack. cbv zeta.
  destruct (filtered_chunks chunks) as [|p0 l] eqn:E; [contradiction|].
  cbv iota. change (p0 :: l) with filtered. fold voc.
  rewrite Hrun. cbn [bind app]. fold tfvs.
  set (idf_values := idf_table (length filtered) doc_freq).
  assert (Hkeys : keys idf_values = keys doc_freq).
  { unfold idf_values. rewrite idf_table_eq by apply Hok.
    unfold keys. rewrite map_map. reflexivity. }
  assert (Hnd : NoDup (keys idf_values)) by (rewrite Hkeys; apply Hok).
  rewrite (idf_items_ok idf_values Hnd idf_values) by apply incl_refl.
  cbn [bind]. rewrite entries_loop_ok; [reflexivity|].
  intros z p Hz Hp.
  assert (Htfv : In (snd z) tfvs).
  { destruct z as [q tfv]. eapply in_combine_r. exact Hz. }
  rewrite Hkeys. apply Hok. rewrite Hget.
  apply Nat.add_pos_r. apply df_count_pos.
  exists (snd z). split; [exact Htfv|].
  eapply tf_vectors_has_index; [exact Htfv|exact Hp].
Qed.

End BuildFacts.

Lemma key_sorted_nodup (V : Type) (l : list (nat * V)) :
  StronglySorted key_lt l -> NoDup (map fst l).
Proof.
  induction 1 as [|a l Hs IH Ha]; simpl; constructor; [|exact IH].
  rewrite in_map_iff. intros [b [E Hb]].
  rewrite Forall_forall in Ha. specialize (Ha b Hb).
  unfold key_lt in Ha. lia.
Qed.

(** A key of a duplicate-free association list selects one entry. *)
Lemma filter_key_once (V : Type) (l : list (nat * V)) (idx : nat) :
  NoDup (map fst l) -> In idx (map fst l) ->
  length (filter (fun q => fst q =? idx) l) = 1.
Proof.
  induction l as [|[k v] l IH]; simpl; [tauto|].
  intros Hnd Hin. inversion Hnd as [|? ? Hk Hl]; subst.
  destruct (Nat.eqb_spec k idx) as [->|Hne].
  - simpl. f_equal.
    destruct (filter (fun q => fst q =? idx) l) as [|q f] eqn:E;
      [reflexivity|].
    exfalso. apply Hk.
    assert (Hq : In q (filter (fun q => fst q =? idx) l))
      by (rewrite E; now left).
    apply filter_In in Hq. destruct Hq as [Hq Hqk].
    apply Nat.eqb_eq in Hqk. rewrite <- Hqk. now apply in_map.
  - destruct Hin as [H|H]; [contradiction|]. now apply IH.
Qed.

Section PackFacts.
Context {F : Type} {fl : PyFloat F}.
Variable rt : Runtime.

Lemma build_pack_empty (chunks : list str) :
  filtered_chunks chunks = [] ->
  build_pack rt chunks = Raise (SystemExit no_chunks_message).
Proof. intros E. unfold build_pack. now rewrite E. Qed.

Lemma weighted_sum_ext (f g : nat -> F) (tfv : list (nat * nat)) :
  (forall p, In p tfv -> f (fst p) = g (fst p)) ->
  weighted_sum f tfv = weighted_sum g tfv.
Proof.
  unfold weighted_sum. generalize f_zero.
  induction tfv as [|p tfv IH]; intros s H; simpl; [reflexivity|].
  rewrite (H p) by now left. apply IH. intros q Hq. apply H. now right.
Qed.

Lemma norm_of_ext (f g : nat -> F) (tfv : list (nat * nat)) :
  (forall p, In p tfv -> f (fst p) = g (fst p)) ->
  norm_of f tfv = norm_of g tfv.
Proof. intros H. unfold norm_of. now rewrite (weighted_sum_ext f g tfv H). Qed.

(** The pack in terms of the surviving chunks. *)
Lemma pack_shape (chunk_texts : list str) (p : pack F) :
  build_pack rt chunk_texts = Return p ->
  let filtered := filtered_chunks chunk_texts in
  let tfvs := map (@tf F) (chunks p) in
  filtered <> []
  /\ created p = utcnow_isoformat rt ++ lit "Z"
  /\ vocab p = sorted str_ltb (keys (vocab_counter filtered))
  /\ map (@text F) (chunks p) = map fst filtered
  /\ tfvs = tf_vectors (token_to_index (vocab p)) filtered
  /\ StronglySorted key_lt (idf_pairs p)
  /\ (forall idx v,
        In (idx, v) (idf_pairs p)
        <-> 0 < df_count idx tfvs
            /\ v = idf_of (length filtered) (df_count idx tfvs))
  /\ (forall e, In e (chunks p) ->
                norm e = norm_of (idf_lookup (idf_pairs p)) (tf e)).
Proof.
  intros Hrun filtered tfvs.
  assert (Hne : filtered <> []).
  { intros E. rewrite (build_pack_empty chunk_texts E) in Hrun. discriminate. }
  split; [exact Hne|].
  destruct (build_pack_spec rt chunk_texts Hne) as [doc_freq [Hok [Hget Hp]]].
  rewrite Hp in Hrun. injection Hrun as <-.
  fold filtered in Hget |- *.
  set (voc := sorted str_ltb (keys (vocab_counter filtered))) in *.
  set (tfvs0 := tf_vectors (token_to_index voc) filtered) in *.
  set (idf_values := idf_table (length filtered) doc_freq).
  assert (Hlen : length filtered = length tfvs0)
    by (unfold tfvs0, tf_vectors; now rewrite length_map).
  assert (Htf : tfvs = tfvs0).
  { unfold tfvs. cbn [chunks]. rewrite map_map. unfold entry_of.
    cbn [tf]. change (fun x => snd x) with (@snd (str * list str) (list (nat * nat))).
    now apply map_snd_combine. }
  assert (Hvals : idf_values
                  = map (fun q => (fst q, idf_of (length filtered) (snd q)))
                        doc_freq)
    by (apply idf_table_eq, Hok).
  assert (Hkeys : keys idf_values = keys doc_freq).
  { rewrite Hvals. unfold keys. now rewrite map_map. }
  assert (Hnd : NoDup (keys idf_values)) by (rewrite Hkeys; apply Hok).
  split; [reflexivity|]. split; [reflexivity|]. split.
  { cbn [chunks]. rewrite map_map. unfold entry_of. cbn [text].
    rewrite <- (map_map fst fst). f_equal. now apply map_fst_combine. }
  split; [exact Htf|]. split.
  { cbn [idf_pairs]. change idf_ltb with (pair_ltb (@f_ltb F fl)).
    apply sorted_key_sorted. exact Hnd. }
  split.
  { intros idx v. cbn [idf_pairs]. rewrite in_sorted, Htf.
    fold idf_values. rewrite Hvals, in_map_iff. split.
    - intros [[k n] [E Hin]]. simpl in E. injection E as -> <-.
      destruct (counter_entry idx n Hok Hin) as [E Hpos].
      rewrite Hget in E. subst n. auto.
    - intros [Hpos ->]. rewrite <- Hget in Hpos |- *.
      apply Hok in Hpos. unfold keys in Hpos. rewrite in_map_iff in Hpos.
      destruct Hpos as [[k n] [E Hin]]. simpl in E. subst k.
      exists (idx, n). split; [|exact Hin]. simpl.
      destruct (counter_entry idx n Hok Hin) as [-> _]. reflexivity. }
  intros e He. cbn [chunks] in He. rewrite in_map_iff in He.
  destruct He as [z [<- Hz]]. unfold entry_of. cbn [norm tf idf_pairs].
  apply norm_of_ext. intros q Hq. unfold idf_lookup. fold idf_values.
  rewrite (@dict_get_perm _ _ Nat.eq_dec idf_values
             (sorted idf_ltb idf_values) (fst q) Hnd
             (Permutation_sym (sorted_perm idf_ltb idf_values))).
  reflexivity.
Qed.
End PackFacts.

(** ** The laws hold of the real numbers *)

#[export] Instance R_float_laws : PyFloatLaws R.
Proof.
  constructor; simpl.
  - intros a b Hb Hab.
    assert (H0 : (0 < INR b)%R) by (apply lt_0_INR; lia).
    assert (H1 : (INR b <= INR a)%R) by (apply le_INR; lia).
    apply (Rmult_le_reg_r (INR b)); [exact H0|].
    unfold Rdiv. rewrite Rmult_assoc, Rinv_l by lra. lra.
  - intros x [Hx|<-].
    + left. rewrite <- ln_1. apply ln_increasing; lra.
    + rewrite ln_1. lra.
  - intros x Hx. lra.
  - intros n Hn. change 1%R with (INR 1). apply le_INR. lia.
  - intros x y Hx Hy. nra.
  - intros s t Hs Ht. lra.
  - intros s Hs. rewrite <- sqrt_1. now apply sqrt_le_1_alt.
  - lra.
  - lra.
  - intros x Hx. lra.
  - intros x Hx. lra.
Qed.

(** ** The segmenter *)

Section SegmenterFacts.
Variable keep : str -> bool.

Lemma in_step_flush st_keep st_all :
  in_step keep st_keep st_all ->
  in_step keep (flush_with keep st_keep)
          (flush_with (fun _ => true) st_all).
Proof.
  intros [Hc Hk]. unfold in_step, flush_with. rewrite Hc.
  destruct (seg_current st_all) as [|line lines] eqn:E;
    [split; congruence|].
  split; [reflexivity|]. cbn [seg_chunks]. rewrite filter_app. simpl.
  rewrite Hk. destruct (keep _); [reflexivity|now rewrite app_nil_r].
Qed.

Lemma in_step_step st_keep st_all line :
  in_step keep st_keep st_all ->
  in_step keep (step_with keep st_keep line)
          (step_with (fun _ => true) st_all line).
Proof.
  intros H. unfold step_with.
  destruct (strip line) as [|c stripped]; [now apply in_step_flush|].
  rewrite (proj1 H).
  destruct (startswith (c :: stripped) (lit "-")
            && match seg_current st_all with [] => false | _ => true end).
  - destruct (in_step_flush st_keep st_all H) as [Hc Hk].
    split; simpl; congruence.
  - destruct H as [Hc Hk]. split; simpl; congruence.
Qed.

Lemma in_step_fold lines : forall st_keep st_all,
  in_step keep st_keep st_all ->
  in_step keep (fold_left (step_with keep) lines st_keep)
          (fold_left (step_with (fun _ => true)) lines st_all).
Proof.
  induction lines as [|line lines IH]; intros st_keep st_all H; simpl;
    [exact H|].
  apply IH. now apply in_step_step.
Qed.

Lemma segment_with_filter (text : str) :
  segment_with keep text = filter keep (candidates text).
Proof.
  unfold candidates, segment_with.
  apply in_step_flush, in_step_fold. now split.
Qed.
End SegmenterFacts.

Lemma split_chunks_candidates (text : str) :
  split_chunks text = filter five_words (candidates text).
Proof. apply segment_with_filter. Qed.

Lemma bullet_free_flush keep st : bullet_free_tail (flush_with keep st).
Proof.
  unfold flush_with, bullet_free_tail.
  destruct (seg_current st) as [|line lines] eqn:E; simpl.
  - rewrite E. constructor.
  - constructor.
Qed.

Lemma bullet_free_step keep st line :
  bullet_free_tail st -> bullet_free_tail (step_with keep st line).
Proof.
  intros H. unfold step_with.
  destruct (strip line) as [|c stripped] eqn:Es; [apply bullet_free_flush|].
  destruct (startswith (c :: stripped) (lit "-")) eqn:Eb.
  - destruct (seg_current st) as [|l0 ls] eqn:Ec; simpl.
    + unfold bullet_free_tail. simpl. rewrite Ec. simpl. constructor.
    + unfold bullet_free_tail, flush_with. rewrite Ec. simpl. constructor.
  - simpl. unfold bullet_free_tail in *. simpl.
    destruct (seg_current st) as [|l0 ls]; simpl in *; [constructor|].
    apply Forall_app. split; [exact H|]. now repeat constructor.
Qed.

Lemma bullet_free_fold keep lines : forall st,
  bullet_free_tail st -> bullet_free_tail (fold_left (step_with keep) lines st).
Proof.
  induction lines as [|line lines IH]; intros st H; simpl; [exact H|].
  apply IH. now apply bullet_free_step.
Qed.

(** * The claims *)

Section Claims.
Context {F : Type} {fl : PyFloat F}.

(** C1. Determinism.  Two builds from the same chunks, at any two times of
    the clock and with any two orders of iterating sets, end alike: both
    raise the same exception, or both return packs with the same [vocab],
    the same [idf_pairs] and the same [tf] arrays.  The same holds of the
    pipeline from the raw text, whose earlier stages are functions of the
    text alone. *)
Theorem build_pack_deterministic (rt1 rt2 : Runtime) :
  (forall chunk_texts : list str,
      on_result index_fields (build_pack rt1 chunk_texts)
      = on_result index_fields (build_pack rt2 chunk_texts))
  /\ (forall raw : str,
         on_result index_fields
           (build_pack rt1 (split_chunks (normalize_text raw)))
         = on_result index_fields
             (build_pack rt2 (split_chunks (normalize_text raw)))).
Proof.
  assert (H : forall chunk_texts : list str,
             on_result index_fields (build_pack rt1 chunk_texts)
             = on_result index_fields (build_pack rt2 chunk_texts)).
  { intros chunk_texts.
    destruct (filtered_chunks chunk_texts) as [|q l] eqn:E.
    - now rewrite !(build_pack_empty _ chunk_texts E).
    - assert (Hne : filtered_chunks chunk_texts <> []) by (rewrite E; discriminate).
      destruct (build_pack_spec rt1 chunk_texts Hne) as [d1 [_ [_ H1]]].
      destruct (build_pack_spec rt2 chunk_texts Hne) as [d2 [_ [_ H2]]].
      rewrite H1, H2. simpl on_result.
      match goal with
      | |- Return (index_fields ?a) = Return (index_fields ?b) =>
          set (p1 := a) in *; set (p2 := b) in *
      end.
      destruct (pack_shape rt1 chunk_texts p1 H1)
        as [_ [_ [V1 [_ [T1 [S1 [I1 _]]]]]]].
      destruct (pack_shape rt2 chunk_texts p2 H2)
        as [_ [_ [V2 [_ [T2 [S2 [I2 _]]]]]]].
      assert (EV : vocab p1 = vocab p2) by (rewrite V1, V2; reflexivity).
      assert (ET : map (@tf F) (chunks p1) = map (@tf F) (chunks p2)).
      { cbv zeta in T1, T2. rewrite T1, T2, EV. reflexivity. }
      unfold index_fields. rewrite EV, ET. f_equal. f_equal. f_equal.
      apply key_sorted_unique; [exact S1|exact S2|].
      intros [idx v]. cbv zeta in I1, I2. rewrite I1, I2, ET. reflexivity. }
  split; [exact H|]. intros raw. apply H.
Qed.

(** Every pair of a chunk's tf vector has a count that is not zero, and
    the index of a token of the vocabulary. *)
Lemma tf_entry_facts (rt : Runtime) (chunk_texts : list str) (p : pack F)
    (e : chunk_entry F) (idx count : nat) :
  build_pack rt chunk_texts = Return p ->
  In e (chunks p) -> In (idx, count) (tf e) ->
  0 < count
  /\ has_index idx (tf e) = true
  /\ exists token, nth_error (vocab p) idx = Some token.
Proof.
  intros Hrun He Hin.
  destruct (pack_shape rt chunk_texts p Hrun)
    as [_ [_ [V [_ [T _]]]]]. cbv zeta in T.
  assert (Htfv : In (tf e)
                    (tf_vectors (token_to_index (vocab p))
                                (filtered_chunks chunk_texts)))
    by (rewrite <- T; now apply in_map).
  split; [apply (tf_vectors_counts _ _ _ _ Htfv Hin)|].
  split; [apply (tf_vectors_has_index _ _ _ _ Htfv Hin)|].
  apply in_tf_vectors in Htfv. destruct Htfv as [q [Hq E]].
  rewrite E in Hin. apply in_sorted in Hin.
  apply (in_map fst) in Hin. simpl in Hin.
  apply tf_items_indices in Hin. destruct Hin as [token [Ht Hidx]].
  destruct (index_covers_tokens chunk_texts q token Hq Ht)
    as [i [Hi [_ Hnth]]].
  rewrite <- V in Hi, Hnth. unfold index_of in Hidx. rewrite Hi in Hidx.
  subst i. eauto.
Qed.

(** C6. Vocabulary index consistency.  In a pack that [build_pack]
    returns, every index of every chunk's [tf] is a position of [vocab],
    and every index of [idf_pairs] is in the [tf] of some chunk with a
    count that is not zero. *)
Theorem vocabulary_index_consistency (rt : Runtime) (chunk_texts : list str)
    (p : pack F) :
  build_pack rt chunk_texts = Return p ->
  (forall e idx count,
      In e (chunks p) -> In (idx, count) (tf e) ->
      0 <= idx < length (vocab p))
  /\ (forall idx idf,
         In (idx, idf) (idf_pairs p) ->
         exists e count,
           In e (chunks p) /\ In (idx, count) (tf e) /\ count <> 0).
Proof.
  intros Hrun. split.
  - intros e idx count He Hin.
    destruct (tf_entry_facts rt chunk_texts p e idx count Hrun He Hin)
      as [_ [_ [token Hnth]]].
    split; [lia|]. apply nth_error_Some. congruence.
  - intros idx idf Hin.
    destruct (pack_shape rt chunk_texts p Hrun)
      as [_ [_ [_ [_ [_ [_ [I _]]]]]]]. cbv zeta in I.
    apply I in Hin. destruct Hin as [Hpos _].
    apply df_count_pos in Hpos. destruct Hpos as [tfv [Htfv Hhas]].
    apply in_map_iff in Htfv. destruct Htfv as [e [<- He]].
    apply has_index_spec in Hhas. destruct Hhas as [count [Hin Hc]].
    eauto.
Qed.

(** C10. Idf coverage.  Every index of a chunk's [tf] has one entry in
    [idf_pairs], no more and no less, so that looking its idf up never
    misses. *)
Theorem idf_coverage (rt : Runtime) (chunk_texts : list str) (p : pack F)
    (e : chunk_entry F) (idx count : nat) :
  build_pack rt chunk_texts = Return p ->
  In e (chunks p) -> In (idx, count) (tf e) ->
  length (filter (fun q => fst q =? idx) (idf_pairs p)) = 1
  /\ exists idf, dict_get Nat.eq_dec (idf_pairs p) idx = Some idf.
Proof.
  intros Hrun He Hin.
  destruct (pack_shape rt chunk_texts p Hrun)
    as [_ [_ [_ [_ [_ [S [I _]]]]]]]. cbv zeta in I.
  destruct (tf_entry_facts rt chunk_texts p e idx count Hrun He Hin)
    as [_ [Hhas _]].
  assert (Hpos : 0 < df_count idx (map (@tf F) (chunks p))).
  { apply df_count_pos. exists (tf e). split; [now apply in_map|exact Hhas]. }
  assert (Hk : In idx (map fst (idf_pairs p))).
  { apply in_map_iff. eexists (idx, _). split; [reflexivity|].
    apply I. split; [exact Hpos|reflexivity]. }
  split.
  - apply filter_key_once; [now apply key_sorted_nodup|exact Hk].
  - now apply in_keys_get.
Qed.

(** The idf of an index of [idf_pairs] is at least 1.0. *)
Lemma idf_of_ge_one {laws : PyFloatLaws F} (num_docs df : nat) :
  df <= num_docs -> f_le f_one (idf_of num_docs df).
Proof.
  intros Hle. unfold idf_of.
  apply add_one_ge_one, log_nonneg, int_div_ge_one; lia.
Qed.

(** C2. The idf formula.  Every pair [(idx, idf)] of [idf_pairs] has
    [idf = log((1 + N) / (1 + df)) + 1.0], where N is the number of
    surviving chunks, which is the number of chunk entries, and df the
    number of chunk entries whose [tf] has [idx] with a count that is not
    zero; and this idf is at least 1.0. *)
Theorem idf_pairs_formula {laws : PyFloatLaws F} (rt : Runtime)
    (chunk_texts : list str) (p : pack F) (idx : nat) (idf : F) :
  build_pack rt chunk_texts = Return p ->
  In (idx, idf) (idf_pairs p) ->
  let N := length (filtered_chunks chunk_texts) in
  let df := length (filter (fun e => has_index idx (tf e)) (chunks p)) in
  N = length (chunks p)
  /\ idf = f_add (f_log (f_int_div (1 + N) (1 + df))) f_one
  /\ f_le f_one idf.
Proof.
  intros Hrun Hin N df.
  destruct (pack_shape rt chunk_texts p Hrun)
    as [_ [_ [_ [X [T [_ [I _]]]]]]]. cbv zeta in I, T.
  assert (HN : N = length (chunks p)).
  { unfold N. rewrite <- (length_map fst), <- X. apply length_map. }
  assert (Hdf : df_count idx (map (@tf F) (chunks p)) = df).
  { unfold df_count, df. clear.
    induction (chunks p) as [|e l IH]; simpl; [reflexivity|].
    destruct (has_index idx (tf e)); simpl; now rewrite IH. }
  apply I in Hin. rewrite Hdf in Hin. destruct Hin as [_ ->].
  split; [exact HN|]. split; [reflexivity|].
  apply idf_of_ge_one. fold N. rewrite HN. unfold df. apply filter_length_le.
Qed.


(** The sum of squares of a tf vector that is not empty is at least 1.0
    when its counts are positive and its idfs at least 1.0. *)
Lemma weighted_sum_ge_one {laws : PyFloatLaws F} (idf : nat -> F)
    (tfv : list (nat * nat)) :
  tfv <> [] ->
  (forall q, In q tfv -> 1 <= snd q /\ f_le f_one (idf (fst q))) ->
  f_le f_one (weighted_sum idf tfv).
Proof.
  unfold weighted_sum. intros Hne Hall.
  assert (G : forall l s,
             (forall q, In q l -> 1 <= snd q /\ f_le f_one (idf (fst q))) ->
             f_le f_one s \/ (f_le f_zero s /\ l <> []) ->
             f_le f_one
               (fold_left
                  (fun acc q =>
                     let weight := f_mul (f_of_int (snd q)) (idf (fst q)) in
                     f_add acc (f_mul weight weight))
                  l s)).
  { induction l as [|q l IH]; intros s Hl Hs; cbn [fold_left].
    - destruct Hs as [Hs|[_ Hs]]; [exact Hs|contradiction].
    - apply IH; [intros r Hr; apply Hl; now right|]. left.
      destruct (Hl q (or_introl eq_refl)) as [Hc Hi].
      assert (Hw : f_le f_one (f_mul (f_of_int (snd q)) (idf (fst q))))
        by (apply mul_ge_one; [now apply of_int_ge_one|exact Hi]).
      apply add_ge_one; [|now apply mul_ge_one].
      destruct Hs as [Hs|[Hs _]]; [now apply ge_one_nonneg|exact Hs]. }
  apply G; [exact Hall|]. right. split; [apply zero_le_zero|exact Hne].
Qed.

Lemma idf_lookup_ge_one {laws : PyFloatLaws F} (rt : Runtime)
    (chunk_texts : list str) (p : pack F) (e : chunk_entry F)
    (idx count : nat) :
  build_pack rt chunk_texts = Return p ->
  In e (chunks p) -> In (idx, count) (tf e) ->
  f_le f_one (idf_lookup (idf_pairs p) idx).
Proof.
  intros Hrun He Hin.
  destruct (pack_shape rt chunk_texts p Hrun)
    as [_ [_ [_ [_ [T [S [I _]]]]]]]. cbv zeta in I, T.
  destruct (tf_entry_facts rt chunk_texts p e idx count Hrun He Hin)
    as [_ [Hhas _]].
  assert (Hpos : 0 < df_count idx (map (@tf F) (chunks p))).
  { apply df_count_pos. exists (tf e). split; [now apply in_map|exact Hhas]. }
  assert (Hentry : In (idx, idf_of (length (filtered_chunks chunk_texts))
                              (df_count idx (map (@tf F) (chunks p))))
                      (idf_pairs p))
    by (apply I; split; [exact Hpos|reflexivity]).
  unfold idf_lookup.
  rewrite (in_dict_get Nat.eq_dec (idf_pairs p) idx _
                       (key_sorted_nodup _ _ S) Hentry).
  apply idf_of_ge_one.
  rewrite (df_count_le idx (map (@tf F) (chunks p))), T.
  unfold tf_vectors. now rewrite length_map.
Qed.

(** C5. Norm positivity.  The norm of a chunk entry is the square root of
    the sum, over the pairs of its [tf], of the squares of [raw_tf * idf],
    with the idf that [idf_pairs] gives the index, and 1.0 when that sum
    is zero; it is greater than 0 in both cases. *)
Theorem norm_positive {laws : PyFloatLaws F} (rt : Runtime)
    (chunk_texts : list str) (p : pack F) (e : chunk_entry F) :
  build_pack rt chunk_texts = Return p ->
  In e (chunks p) ->
  let s := weighted_sum (idf_lookup (idf_pairs p)) (tf e) in
  norm e = (if f_bool s then f_sqrt s else f_one)
  /\ f_lt f_zero (norm e).
Proof.
  intros Hrun He s.
  destruct (pack_shape rt chunk_texts p Hrun)
    as [_ [_ [_ [_ [T [_ [_ Hnorm]]]]]]]. cbv zeta in T.
  assert (E : norm e = if f_bool s then f_sqrt s else f_one)
    by (rewrite (Hnorm e He); reflexivity).
  split; [exact E|]. rewrite E.
  assert (Hs : f_le f_one s).
  { apply weighted_sum_ge_one.
    - assert (Htfv : In (tf e)
                        (tf_vectors (token_to_index (vocab p))
                                    (filtered_chunks chunk_texts)))
        by (rewrite <- T; now apply in_map).
      apply in_tf_vectors in Htfv. destruct Htfv as [q [Hq Eq]].
      apply filtered_chunks_spec in Hq. destruct Hq as [_ [_ Hlen]].
      destruct (snd q) as [|token tokens] eqn:Et; [simpl in Hlen; lia|].
      assert (Hi : In (index_of (token_to_index (vocab p)) token)
                      (map fst (tf_items (token_to_index (vocab p))
                                         (token :: tokens)))).
      { apply tf_items_indices. exists token. split; [now left|reflexivity]. }
      intros Hnil. rewrite Eq in Hnil.
      apply (f_equal (@length _)) in Hnil.
      rewrite length_sorted in Hnil. simpl in Hnil.
      apply length_zero_iff_nil in Hnil. rewrite Hnil in Hi. destruct Hi.
    - intros [idx count] Hin. simpl. split.
      + apply (tf_entry_facts rt chunk_texts p e idx count Hrun He Hin).
      + apply (idf_lookup_ge_one rt chunk_texts p e idx count Hrun He Hin). }
  destruct (f_bool s).
  - apply ge_one_pos, sqrt_ge_one, Hs.
  - apply ge_one_pos, one_le_one.
Qed.


(** C3, amended.  Filtering invariant.  For chunk texts of ASCII
    characters, every chunk entry of the pack has at least 5 tokens and
    every chunk that the build filter drops has fewer than 5 tokens; every
    candidate that the segmenter drops has fewer than 5 words separated by
    white space. *)
Theorem filtering_invariant (rt : Runtime) (chunk_texts : list str)
    (p : pack F) :
  ascii_chunks chunk_texts = true ->
  build_pack rt chunk_texts = Return p ->
  (forall e, In e (chunks p) -> 5 <= length (tokenize (text e)))
  /\ (forall c, In c chunk_texts -> ~ In c (map (@text F) (chunks p)) ->
                length (tokenize c) < 5)
  /\ (forall raw c, In c (candidates raw) -> ~ In c (split_chunks raw) ->
                    length (split c) < 5).
Proof.
  intros _ Hrun.
  destruct (pack_shape rt chunk_texts p Hrun) as [_ [_ [_ [X _]]]].
  rewrite map_fst_filtered in X.
  split; [|split].
  - intros e He. apply (in_map (@text F)) in He. rewrite X in He.
    apply filter_In in He. destruct He as [_ He].
    destruct (Nat.ltb_spec (length (tokenize (text e))) 5);
      [discriminate|assumption].
  - intros c Hc Hout. rewrite X in Hout.
    destruct (Nat.ltb_spec (length (tokenize c)) 5) as [H|H];
      [exact H|].
    exfalso. apply Hout. apply filter_In. split; [exact Hc|].
    destruct (Nat.ltb_spec (length (tokenize c)) 5); [lia|reflexivity].
  - intros raw c Hc Hout. rewrite split_chunks_candidates in Hout.
    destruct (Nat.leb_spec 5 (length (split c))) as [H|H]; [|exact H].
    exfalso. apply Hout. apply filter_In. split; [exact Hc|].
    unfold five_words. now apply Nat.leb_le.
Qed.

(** C4. Empty-index failure.  When no chunk has five tokens [build_pack]
    raises [SystemExit] with its message, and otherwise it returns a pack
    (for chunk texts of ASCII characters, as [main] passes them); [main]
    writes the pack in the second case and leaves the files as they
    were in the first; and whenever [main] ends with an exception, the
    files are as they were. *)
Theorem empty_index_failure (rt : Runtime) :
  (forall chunk_texts : list str,
      ascii_chunks chunk_texts = true ->
      match filtered_chunks chunk_texts with
      | [] =>
          build_pack (F := F) rt chunk_texts
          = Raise (SystemExit no_chunks_message)
      | _ :: _ => exists p : pack F, build_pack rt chunk_texts = Return p
      end)
  /\ (forall (pdf_path output_path raw_text : str) (w : world F),
         match filtered_chunks (split_chunks (normalize_text raw_text)) with
         | [] =>
             main rt pdf_path output_path true (Return raw_text) w
             = (Raise (SystemExit no_chunks_message), w)
         | _ :: _ =>
             exists p : pack F,
               build_pack rt (split_chunks (normalize_text raw_text))
               = Return p
               /\ main rt pdf_path output_path true (Return raw_text) w
                  = (Return tt,
                     World (dict_set str_eq_dec (files w) output_path p)
                           (stdout w ++ [saved_message p]))
         end)
  /\ (forall (pdf_path output_path : str) (pdf_exists : bool)
             (extracted : result str) (w w' : world F) (e : exn),
         main rt pdf_path output_path pdf_exists extracted w = (Raise e, w')
         -> w' = w).
Proof.
  assert (H1 : forall chunk_texts : list str,
             match filtered_chunks chunk_texts with
             | [] =>
                 build_pack (F := F) rt chunk_texts
                 = Raise (SystemExit no_chunks_message)
             | _ :: _ =>
                 exists p : pack F, build_pack rt chunk_texts = Return p
             end).
  { intros chunk_texts.
    destruct (filtered_chunks chunk_texts) as [|q l] eqn:E.
    - now apply build_pack_empty.
    - assert (Hne : filtered_chunks chunk_texts <> [])
        by (rewrite E; discriminate).
      destruct (build_pack_spec rt chunk_texts Hne) as [d [_ [_ H]]].
      eauto. }
  split; [intros chunk_texts _; exact (H1 chunk_texts)|]. split.
  - intros pdf_path output_path raw_text w.
    specialize (H1 (split_chunks (normalize_text raw_text))).
    unfold main. cbn [negb].
    destruct (filtered_chunks (split_chunks (normalize_text raw_text)))
      as [|q l].
    + now rewrite H1.
    + destruct H1 as [pk Hp]. exists pk. split; [exact Hp|].
      now rewrite Hp.
  - intros pdf_path output_path pdf_exists extracted w w' e.
    unfold main. destruct pdf_exists; cbn [negb].
    + destruct extracted as [raw_text|e0]; [|intros [= _ <-]; reflexivity].
      destruct (build_pack rt (split_chunks (normalize_text raw_text)));
        [discriminate|intros [= _ <-]; reflexivity].
    + intros [= _ <-]. reflexivity.
Qed.

End Claims.

(** ** The normaliser and carriage returns *)

Lemma startswith_bullet (s : str) :
  startswith s (lit "- ") = true -> startswith s (lit "-") = true /\ s <> [].
Proof.
  change (lit "- ") with [HYPHEN; SPACE]. change (lit "-") with [HYPHEN].
  destruct s as [|c s]; cbn [startswith]; [discriminate|].
  intros H. apply andb_prop in H. destruct H as [H _].
  rewrite H. split; [now destruct s|discriminate].
Qed.

Lemma sub_crlf_match (s : str) :
  sub_from (match_literal [CR; LF]) [LF] 0 (CR :: LF :: s)
  = LF :: sub_from (match_literal [CR; LF]) [LF] 0 s.
Proof. reflexivity. Qed.

Lemma sub_crlf_other (c : char) (s : str) :
  c <> CR ->
  sub_from (match_literal [CR; LF]) [LF] 0 (c :: s)
  = c :: sub_from (match_literal [CR; LF]) [LF] 0 s.
Proof.
  intros Hne. cbn [sub_from]. unfold match_literal at 1. cbn [startswith].
  assert (E : (CR =? c)%N = false) by (apply N.eqb_neq; congruence).
  rewrite E. reflexivity.
Qed.

(** Replacing every CR LF by LF removes every carriage return of a text in
    which each of them is followed by a line feed. *)
Lemma replace_crlf_no_cr (s : str) :
  crlf_only s = true -> ~ In CR (replace [CR; LF] [LF] s).
Proof.
  unfold replace, re_sub.
  induction s as [|c s IH]; [simpl; tauto|].
  intros Hs. cbn [crlf_only] in Hs. apply andb_prop in Hs.
  destruct Hs as [Hc Hs]. specialize (IH Hs).
  destruct (N.eqb_spec c CR) as [->|Hne].
  - destruct s as [|c' s']; [discriminate|].
    cbn [startswith] in Hc. apply andb_prop in Hc. destruct Hc as [Hc _].
    apply N.eqb_eq in Hc. subst c'.
    rewrite sub_crlf_match.
    rewrite sub_crlf_other in IH by discriminate.
    exact IH.
  - rewrite sub_crlf_other by exact Hne.
    intros [H|H]; [congruence|contradiction].
Qed.

(** C8, amended.  When every carriage return of the raw text is followed by
    a line feed, the normalised text has no carriage return. *)
Theorem normalize_text_no_cr (raw : str) :
  crlf_only raw = true -> ~ In CR (normalize_text raw).
Proof.
  assert (Hlit : forall l : str,
             forallb (fun c => negb (c =? CR)%N) l = true -> ~ In CR l).
  { intros l Hl H. rewrite forallb_forall in Hl. specialize (Hl _ H).
    rewrite N.eqb_refl in Hl. discriminate. }
  intros Hraw Hin. unfold normalize_text in Hin.
  apply in_strip in Hin.
  apply in_re_sub in Hin. destruct Hin as [Hin|Hin];
    [revert Hin; apply Hlit; reflexivity|].
  apply in_re_sub in Hin. destruct Hin as [Hin|Hin];
    [revert Hin; apply Hlit; reflexivity|].
  apply in_re_sub in Hin. destruct Hin as [Hin|Hin];
    [revert Hin; apply Hlit; reflexivity|].
  apply filter_In in Hin. destruct Hin as [Hin _].
  apply in_re_sub in Hin. destruct Hin as [Hin|Hin];
    [revert Hin; apply Hlit; reflexivity|].
  apply in_re_sub in Hin. destruct Hin as [Hin|Hin];
    [revert Hin; apply Hlit; reflexivity|].
  apply in_re_sub in Hin. destruct Hin as [Hin|Hin];
    [revert Hin; apply Hlit; reflexivity|].
  apply in_replace_each in Hin. destruct Hin as [Hin|Hin];
    [revert Hin; apply Hlit; reflexivity|].
  apply in_replace_each in Hin. destruct Hin as [Hin|Hin];
    [revert Hin; apply Hlit; reflexivity|].
  now apply (replace_crlf_no_cr raw Hraw).
Qed.

(** C9.  What the normaliser returns for a non-ASCII character between two
    blank lines: the character is dropped after the blank lines have been
    collapsed, and four line feeds in a row remain. *)
Theorem normalize_text_blank_run :
  normalize_text (lit "a" ++ [LF; LF; 233; LF; LF]%N ++ lit "b")
  = lit "a" ++ [LF; LF; LF; LF] ++ lit "b"
  /\ blank_run 0 (normalize_text (lit "a" ++ [LF; LF; 233; LF; LF]%N
                                          ++ lit "b")) = true.
Proof. split; vm_compute; reflexivity. Qed.

(** ** Bullets *)

(** C7, amended.  Bullet segmentation.  A line that starts with "- " when
    stripped, met with an accumulator that is not empty, flushes the
    accumulator and becomes the only line of the new one; so that at every
    moment of the scan no line of the accumulator but the first starts with
    a hyphen.  An example whose pieces have five words or more is cut by
    [split_chunks] into separate chunks at each bullet and at the blank
    line; its last piece, of two words, is dropped. *)
Theorem bullet_segmentation :
  (forall (st : segmenter) (line : str),
      startswith (strip line) (lit "- ") = true ->
      seg_current st <> [] ->
      step st line = Segmenter (seg_chunks (flush st)) [strip line]
      /\ seg_current (flush st) = [])
  /\ (forall lines : list str,
         bullet_free_tail (fold_left step lines (Segmenter [] [])))
  /\ split_chunks bullet_example_long
     = [lit "Summary of the work Did X for them";
        lit "- Built Y with many new tools";
        lit "- Shipped Z to all the users"].
Proof.
  split; [|split].
  - intros st line Hb Hc.
    destruct (startswith_bullet _ Hb) as [Hh Hne].
    unfold step, step_with, flush. rewrite Hh.
    destruct (strip line) as [|c stripped]; [contradiction|].
    unfold flush_with.
    destruct (seg_current st) as [|l0 ls]; [contradiction|].
    cbn [andb seg_chunks seg_current app]. split; reflexivity.
  - intros lines. apply bullet_free_fold. constructor.
  - vm_compute. reflexivity.
Qed.

(** ** The claims at concrete inputs *)

Lemma idf_pairs_formula_witness :
  exists (p : pack R) (idf : R),
    build_pack demo_runtime demo_chunks = Return p
    /\ In (0, idf) (idf_pairs p)
    /\ length (filtered_chunks demo_chunks) = length (chunks p)
    /\ idf = (ln (INR (1 + length (filtered_chunks demo_chunks))
                  / INR (1 + length (filter (fun e => has_index 0 (tf e))
                                            (chunks p))))
              + 1)%R
    /\ (1 <= idf)%R.
Proof.
  eexists. eexists. split; [vm_compute; reflexivity|]. split; [left; reflexivity|].
  apply (idf_pairs_formula (laws := R_float_laws) demo_runtime demo_chunks).
  - vm_compute. reflexivity.
  - left. reflexivity.
Defined.

Lemma filtering_invariant_witness :
  exists p : pack R,
    ascii_chunks demo_chunks = true
    /\ build_pack demo_runtime demo_chunks = Return p
    /\ (forall e, In e (chunks p) -> 5 <= length (tokenize (text e)))
    /\ (forall c, In c demo_chunks -> ~ In c (map (@text R) (chunks p)) ->
                  length (tokenize c) < 5)
    /\ (forall raw c, In c (candidates raw) -> ~ In c (split_chunks raw) ->
                      length (split c) < 5).
Proof.
  eexists. split; [vm_compute; reflexivity|].
  split; [vm_compute; reflexivity|].
  apply (filtering_invariant demo_runtime demo_chunks).
  - vm_compute. reflexivity.
  - vm_compute. reflexivity.
Defined.

(** The second half of C3 as it is stated fails on a candidate of one word
    that holds five tokens: the segmenter drops it. *)
Lemma filtering_invariant_counterexample :
  In hyphenated_chunk (candidates (normalize_text hyphenated_chunk))
  /\ ~ In hyphenated_chunk (split_chunks (normalize_text hyphenated_chunk))
  /\ ~ length (tokenize hyphenated_chunk) < 5.
Proof.
  split; [|split].
  - vm_compute. left. reflexivity.
  - vm_compute. tauto.
  - vm_compute. lia.
Qed.

Lemma norm_positive_witness :
  exists (p : pack R) (e : chunk_entry R),
    build_pack demo_runtime demo_chunks = Return p
    /\ In e (chunks p)
    /\ norm e
       = (if f_bool (weighted_sum (idf_lookup (idf_pairs p)) (tf e))
          then f_sqrt (weighted_sum (idf_lookup (idf_pairs p)) (tf e))
          else f_one)
    /\ (0 < norm e)%R.
Proof.
  eexists. eexists. split; [vm_compute; reflexivity|]. split; [left; reflexivity|].
  apply (norm_positive (laws := R_float_laws) demo_runtime demo_chunks).
  - vm_compute. reflexivity.
  - left. reflexivity.
Defined.

Lemma vocabulary_index_consistency_witness :
  exists p : pack R,
    build_pack demo_runtime demo_chunks = Return p
    /\ (forall e idx count,
           In e (chunks p) -> In (idx, count) (tf e) ->
           0 <= idx < length (vocab p))
    /\ (forall idx idf,
           In (idx, idf) (idf_pairs p) ->
           exists e count,
             In e (chunks p) /\ In (idx, count) (tf e) /\ count <> 0).
Proof.
  eexists. split; [vm_compute; reflexivity|].
  apply (vocabulary_index_consistency demo_runtime demo_chunks).
  vm_compute. reflexivity.
Defined.

Lemma idf_coverage_witness :
  exists (p : pack R) (e : chunk_entry R),
    build_pack demo_runtime demo_chunks = Return p
    /\ In e (chunks p)
    /\ In (0, 1) (tf e)
    /\ length (filter (fun q => fst q =? 0) (idf_pairs p)) = 1
    /\ exists idf, dict_get Nat.eq_dec (idf_pairs p) 0 = Some idf.
Proof.
  eexists. eexists. split; [vm_compute; reflexivity|].
  split; [left; reflexivity|]. split; [left; reflexivity|].
  eapply (idf_coverage demo_runtime demo_chunks _ _ 0 1).
  - vm_compute. reflexivity.
  - left. reflexivity.
  - left. reflexivity.
Defined.

Lemma normalize_text_no_cr_witness :
  crlf_only (lit "a" ++ [CR; LF] ++ lit "b") = true
  /\ ~ In CR (normalize_text (lit "a" ++ [CR; LF] ++ lit "b")).
Proof.
  split; [reflexivity|].
  apply (normalize_text_no_cr (lit "a" ++ [CR; LF] ++ lit "b")). reflexivity.
Defined.

(** C8 as it is stated fails on a carriage return that no line feed
    follows. *)
Lemma normalize_text_cr_counterexample :
  In CR (normalize_text (lit "a" ++ [CR] ++ lit "b")).
Proof. vm_compute. right. left. reflexivity. Qed.

Lemma empty_index_failure_witness :
  ascii_chunks demo_chunks = true
  /\ exists p : pack R, build_pack demo_runtime demo_chunks = Return p.
Proof.
  assert (Hascii : ascii_chunks demo_chunks = true)
    by (vm_compute; reflexivity).
  split; [exact Hascii|].
  pose proof (proj1 (empty_index_failure (F := R) demo_runtime)
                    demo_chunks Hascii) as H.
  assert (E : filtered_chunks demo_chunks
              = [(lit "Python, Rust, Golang, Kotlin and Swift",
                  tokenize (lit "Python, Rust, Golang, Kotlin and Swift"))])
    by (vm_compute; reflexivity).
  rewrite E in H. exact H.
Defined.

(** The example of C7 as it is stated fails on the code: the scan cuts it
    at each bullet and at the blank line, but each of the pieces has fewer
    than five words, and [split_chunks] returns none of them. *)
Lemma bullet_segmentation_counterexample :
  split_chunks bullet_example = []
  /\ candidates bullet_example
     = [lit "Summary Did X"; lit "- Built Y"; lit "- Shipped Z";
        lit "Education ..."].
Proof. split; vm_compute; reflexivity. Qed.

(** ** The normaliser and blank lines *)

Lemma sub_from_skipn m repl : forall (skip : nat) (s : str),
  sub_from m repl skip s = sub_from m repl 0 (skipn skip s).
Proof.
  induction skip as [|k IH]; intros s; [reflexivity|].
  destruct s as [|c s]; [reflexivity|]. simpl. apply IH.
Qed.

Lemma skipn_takewhile (p : char -> bool) (s : str) :
  skipn (length (takewhile p s)) s = dropwhile p s.
Proof.
  induction s as [|c s IH]; simpl; [reflexivity|].
  destruct (p c); simpl; [exact IH|reflexivity].
Qed.

Lemma length_dropwhile (p : char -> bool) (s : str) :
  length (dropwhile p s) <= length s.
Proof.
  induction s as [|c s IH]; simpl; [lia|]. destruct (p c); simpl; lia.
Qed.

Lemma takewhile_dropwhile (p : char -> bool) (s : str) :
  takewhile p (dropwhile p s) = [].
Proof.
  induction s as [|c s IH]; simpl; [reflexivity|].
  destruct (p c) eqn:E; simpl; [exact IH|now rewrite E].
Qed.

(** A run that is not there after more line feeds is not there after
    fewer. *)
Lemma blank_run_mono (s : str) : forall k k',
  k' <= k -> blank_run k s = false -> blank_run k' s = false.
Proof.
  induction s as [|c s IH]; intros k k' Hle; cbn [blank_run];
    [reflexivity|].
  destruct (c =? LF)%N; [|tauto].
  intros H. apply orb_false_elim in H. destruct H as [H1 H2].
  apply Nat.leb_gt in H1.
  assert (E : (2 <=? k') = false) by (apply Nat.leb_gt; lia).
  rewrite E. cbn [orb]. apply (IH (S k)); [lia|exact H2].
Qed.

(** The collapse of the runs of three line feeds and more leaves no such
    run, in any text. *)
Lemma collapse_no_blank_run (s : str) :
  blank_run 0 (re_sub match_newlines3 [LF; LF] s) = false.
Proof.
  unfold re_sub.
  assert (G : forall n s k,
             length s <= n ->
             k = 0 \/ k + length (takewhile is_newline s) <= 2 ->
             blank_run k (sub_from match_newlines3 [LF; LF] 0 s) = false).
  { induction n as [|n IH]; intros t k Hlen Hk.
    - destruct t; [reflexivity|simpl in Hlen; lia].
    - destruct t as [|c rest]; [reflexivity|].
      cbn [sub_from]. unfold match_newlines3 at 1.
      set (r := length (takewhile is_newline (c :: rest))) in *.
      destruct (Nat.leb_spec 3 r) as [H3|H3].
      + assert (k = 0) by lia. subst k.
        destruct r as [|r'] eqn:Er; [lia|].
        rewrite sub_from_skipn.
        change (skipn r' rest) with (skipn (S r') (c :: rest)).
        unfold r in Er. rewrite <- Er, skipn_takewhile.
        cbn [app blank_run]. rewrite N.eqb_refl. cbn [Nat.leb orb].
        apply IH.
        * pose proof (length_dropwhile is_newline (c :: rest)) as Hd.
          assert (Hc : is_newline c = true).
          { simpl in Er. destruct (is_newline c); [reflexivity|discriminate]. }
          simpl in *. rewrite Hc in *. simpl in Hlen.
          pose proof (length_dropwhile is_newline rest). lia.
        * right. rewrite takewhile_dropwhile. simpl. lia.
      + destruct (3 <=? r) eqn:E3; [apply Nat.leb_le in E3; lia|].
        cbn [blank_run]. unfold r in *. simpl in Hk, H3.
        unfold is_newline in Hk, H3.
        destruct (c =? LF)%N eqn:Ec.
        * simpl in Hk, H3.
          assert (E2 : (2 <=? k) = false) by (apply Nat.leb_gt; lia).
          rewrite E2. cbn [orb]. apply IH; [simpl in Hlen; lia|].
          right. unfold is_newline. lia.
        * apply IH; [simpl in Hlen; lia|]. now left. }
  apply (G (length s) s 0); [lia|now left].
Qed.

Lemma blank_run_tail (c : char) (s : str) (k : nat) :
  blank_run k (c :: s) = false -> blank_run 0 s = false.
Proof.
  cbn [blank_run]. destruct (c =? LF)%N; [|tauto].
  intros H. apply orb_false_elim in H.
  apply (blank_run_mono s (S k)); [lia|tauto].
Qed.

Lemma blank_run_dropwhile (p : char -> bool) (s : str) : forall k,
  blank_run k s = false -> blank_run 0 (dropwhile p s) = false.
Proof.
  induction s as [|c s IH]; intros k H; cbn [dropwhile]; [reflexivity|].
  destruct (p c).
  - apply (IH 0). exact (blank_run_tail c s k H).
  - apply (blank_run_mono (c :: s) k); [lia|exact H].
Qed.

Lemma blank_run_prefix (l1 l2 : str) : forall k,
  blank_run k (l1 ++ l2) = false -> blank_run k l1 = false.
Proof.
  induction l1 as [|c l1 IH]; intros k; cbn [app blank_run]; [reflexivity|].
  destruct (c =? LF)%N; [|apply IH].
  intros H. apply orb_false_elim in H. destruct H as [H1 H2].
  rewrite H1. cbn [orb]. now apply IH.
Qed.

(** In front of a text, characters that are no line feeds end the run. *)
Lemma blank_run_plain_app (l s : str) :
  forallb (fun c => negb (c =? LF)%N) l = true -> l <> [] ->
  forall k, blank_run k (l ++ s) = blank_run 0 s.
Proof.
  induction l as [|c l IH]; intros Hl Hne k; [contradiction|].
  cbn [forallb] in Hl. apply andb_prop in Hl. destruct Hl as [Hc Hl].
  cbn [app blank_run]. destruct (c =? LF)%N; [discriminate|].
  destruct l as [|d l]; [reflexivity|].
  apply IH; [exact Hl|discriminate].
Qed.

Lemma takewhile_dropwhile_app (p : char -> bool) (s : str) :
  takewhile p s ++ dropwhile p s = s.
Proof.
  induction s as [|c s IH]; simpl; [reflexivity|].
  destruct (p c); simpl; [now rewrite IH|reflexivity].
Qed.

Lemma strip_no_blank_run (s : str) :
  blank_run 0 s = false -> blank_run 0 (strip s) = false.
Proof.
  intros H. unfold strip, lstrip, rstrip.
  apply (blank_run_dropwhile isspace) in H.
  set (t := dropwhile isspace s) in *.
  apply (blank_run_prefix _ (rev (takewhile isspace (rev t)))).
  rewrite <- rev_app_distr, takewhile_dropwhile_app, rev_involutive.
  exact H.
Qed.

Lemma startswith_app (old : str) : forall s : str,
  startswith s old = true -> s = old ++ skipn (length old) s.
Proof.
  induction old as [|o old IH]; intros s; simpl; [reflexivity|].
  destruct s as [|c s]; [discriminate|].
  intros H. apply andb_prop in H. destruct H as [H1 H2].
  apply N.eqb_eq in H1. subst c. f_equal. now apply IH.
Qed.

(** Replacing a text without line feeds by another one that is not empty
    makes no run of line feeds longer. *)
Lemma replace_no_blank_run (old new s : str) :
  forallb (fun c => negb (c =? LF)%N) old = true -> old <> [] ->
  forallb (fun c => negb (c =? LF)%N) new = true -> new <> [] ->
  blank_run 0 s = false -> blank_run 0 (replace old new s) = false.
Proof.
  intros Hold Hone Hnew Hnne. unfold replace, re_sub.
  assert (G : forall n s k,
             length s <= n -> blank_run k s = false ->
             blank_run k (sub_from (match_literal old) new 0 s) = false).
  { induction n as [|n IH]; intros t k Hlen Hk.
    - destruct t; [reflexivity|simpl in Hlen; lia].
    - destruct t as [|c rest]; [reflexivity|].
      cbn [sub_from]. unfold match_literal at 1.
      destruct (startswith (c :: rest) old) eqn:E.
      + destruct old as [|o old']; [contradiction|]. cbn [length].
        rewrite sub_from_skipn.
        change (skipn (length old') rest)
          with (skipn (length (o :: old')) (c :: rest)).
        apply startswith_app in E.
        set (t2 := skipn (length (o :: old')) (c :: rest)) in *.
        rewrite blank_run_plain_app by assumption.
        rewrite E, blank_run_plain_app in Hk by assumption.
        apply IH; [|exact Hk].
        apply (f_equal (@length _)) in E. rewrite length_app in E.
        simpl in E, Hlen. lia.
      + cbn [blank_run] in Hk |- *. destruct (c =? LF)%N.
        * apply orb_false_elim in Hk. destruct Hk as [H1 H2].
          rewrite H1. cbn [orb]. apply IH; [simpl in Hlen; lia|exact H2].
        * apply IH; [simpl in Hlen; lia|exact Hk]. }
  apply (G (length s)). lia.
Qed.

(** Putting "- " after a line feed and a hyphen, in place of the white space
    there, makes no run of line feeds longer. *)
Lemma bullet_no_blank_run (s : str) :
  blank_run 0 s = false ->
  blank_run 0 (re_sub match_bullet (LF :: lit "- ") s) = false.
Proof.
  unfold re_sub. change (LF :: lit "- ") with [LF; HYPHEN; SPACE].
  assert (G : forall n s k,
             length s <= n -> blank_run k s = false ->
             blank_run k (sub_from match_bullet [LF; HYPHEN; SPACE] 0 s)
             = false).
  { induction n as [|n IH]; intros t k Hlen Hk.
    - destruct t; [reflexivity|simpl in Hlen; lia].
    - destruct t as [|c rest]; [reflexivity|].
      assert (Hplain : blank_run k (c :: sub_from match_bullet
                                          [LF; HYPHEN; SPACE] 0 rest)
                       = false).
      { cbn [blank_run] in Hk |- *. destruct (c =? LF)%N.
        - apply orb_false_elim in Hk. destruct Hk as [H1 H2].
          rewrite H1. cbn [orb]. apply IH; [simpl in Hlen; lia|exact H2].
        - apply IH; [simpl in Hlen; lia|exact Hk]. }
      cbn [sub_from]. unfold match_bullet at 1.
      destruct rest as [|b rest2]; [exact Hplain|].
      destruct ((c =? LF)%N && (b =? HYPHEN)%N) eqn:E; [|exact Hplain].
      apply andb_prop in E. destruct E as [Ec Eb].
      apply N.eqb_eq in Ec, Eb. subst c b.
      cbn [Nat.add app sub_from]. rewrite sub_from_skipn, skipn_takewhile.
      cbn [blank_run] in Hk |- *.
      change (HYPHEN =? LF)%N with false in *.
      change (SPACE =? LF)%N with false. rewrite N.eqb_refl in *.
      apply orb_false_elim in Hk. destruct Hk as [H1 H2].
      rewrite H1. cbn [orb].
      apply IH.
      + pose proof (length_dropwhile isspace rest2). simpl in Hlen. lia.
      + apply (blank_run_dropwhile isspace rest2 0 H2). }
  apply (G (length s)). lia.
Qed.

Lemma filter_all (A : Type) (f : A -> bool) (l : list A) :
  (forall x, In x l -> f x = true) -> filter f l = l.
Proof.
  induction l as [|x l IH]; intros H; simpl; [reflexivity|].
  rewrite (H x) by now left. f_equal. apply IH. intros y Hy. apply H. now right.
Qed.

(** On ASCII text the result of the normaliser has no three line feeds in a
    row: a run can only come from the characters that are dropped after the
    collapse. *)
Lemma normalize_text_ascii_no_blank_run (raw : str) :
  forallb is_ascii raw = true -> blank_run 0 (normalize_text raw) = false.
Proof.
  intros Hraw. rewrite forallb_forall in Hraw.
  assert (Hlit : forall (l : str) (c : char),
             forallb is_ascii l = true -> In c l -> is_ascii c = true).
  { intros l c Hl. rewrite forallb_forall in Hl. apply Hl. }
  unfold normalize_text.
  set (x1 := replace [CR; LF] [LF] raw).
  set (x2 := replace_each BULLET_CHARS (lit "-") x1).
  set (x3 := replace_each UNICODE_DASHES (lit "-") x2).
  set (x4 := re_sub match_trailing_blanks [LF] x3).
  set (x5 := re_sub match_newlines3 [LF; LF] x4).
  set (x6 := re_sub match_bullet (LF :: lit "- ") x5).
  assert (H1 : forall c, In c x1 -> is_ascii c = true).
  { intros c Hc. apply in_re_sub in Hc.
    destruct Hc as [Hc|Hc]; [revert Hc; now apply Hlit|now apply Hraw]. }
  assert (H2 : forall c, In c x2 -> is_ascii c = true).
  { intros c Hc. apply in_replace_each in Hc.
    destruct Hc as [Hc|Hc]; [revert Hc; now apply Hlit|now apply H1]. }
  assert (H3 : forall c, In c x3 -> is_ascii c = true).
  { intros c Hc. apply in_replace_each in Hc.
    destruct Hc as [Hc|Hc]; [revert Hc; now apply Hlit|now apply H2]. }
  assert (H4 : forall c, In c x4 -> is_ascii c = true).
  { intros c Hc. apply in_re_sub in Hc.
    destruct Hc as [Hc|Hc]; [revert Hc; now apply Hlit|now apply H3]. }
  assert (H5 : forall c, In c x5 -> is_ascii c = true).
  { intros c Hc. apply in_re_sub in Hc.
    destruct Hc as [Hc|Hc]; [revert Hc; now apply Hlit|now apply H4]. }
  assert (H6 : forall c, In c x6 -> is_ascii c = true).
  { intros c Hc. apply in_re_sub in Hc.
    destruct Hc as [Hc|Hc]; [revert Hc; now apply Hlit|now apply H5]. }
  unfold ascii_ignore. rewrite (filter_all _ is_ascii x6 H6).
  apply strip_no_blank_run.
  apply replace_no_blank_run; try reflexivity; try discriminate.
  apply replace_no_blank_run; try reflexivity; try discriminate.
  apply replace_no_blank_run; try reflexivity; try discriminate.
  apply bullet_no_blank_run. apply collapse_no_blank_run.
Qed.

(** * Further properties of the pipeline *)

(** ** The normalised text *)

Lemma dropwhile_head (p : char -> bool) (s : str) (c : char) :
  hd_error (dropwhile p s) = Some c -> p c = false.
Proof.
  induction s as [|a s IH]; simpl; [discriminate|].
  destruct (p a) eqn:E; [exact IH|]. simpl. intros [= <-]. exact E.
Qed.

Lemma strip_trimmed (s : str) : trimmed (strip s).
Proof.
  unfold strip, lstrip, rstrip. set (t := dropwhile isspace s).
  split; intros c Hc.
  - assert (Ht : t = rev (dropwhile isspace (rev t))
                     ++ rev (takewhile isspace (rev t))).
    { rewrite <- rev_app_distr, takewhile_dropwhile_app.
      symmetry. apply rev_involutive. }
    destruct (rev (dropwhile isspace (rev t))) as [|a u]; [discriminate|].
    simpl in Hc. injection Hc as ->.
    apply (dropwhile_head isspace s). fold t. rewrite Ht. reflexivity.
  - rewrite rev_involutive in Hc. exact (dropwhile_head _ _ _ Hc).
Qed.

Lemma normalize_text_chars (raw : str) (c : char) :
  In c (normalize_text raw) -> is_ascii c = true.
Proof.
  assert (Hlit : forall l : str, forallb is_ascii l = true ->
                                 In c l -> is_ascii c = true).
  { intros l Hl. rewrite forallb_forall in Hl. apply Hl. }
  intros Hin. unfold normalize_text in Hin.
  apply in_strip in Hin.
  apply in_re_sub in Hin. destruct Hin as [Hin|Hin];
    [revert Hin; apply Hlit; reflexivity|].
  apply in_re_sub in Hin. destruct Hin as [Hin|Hin];
    [revert Hin; apply Hlit; reflexivity|].
  apply in_re_sub in Hin. destruct Hin as [Hin|Hin];
    [revert Hin; apply Hlit; reflexivity|].
  apply filter_In in Hin. apply Hin.
Qed.

(** Whatever the raw text holds, the normalised text holds ASCII characters
    only, and neither starts nor ends with white space. *)
Theorem normalize_text_ascii_trimmed (raw : str) :
  forallb is_ascii (normalize_text raw) = true
  /\ trimmed (normalize_text raw).
Proof.
  split.
  - apply forallb_forall. intros c Hc. exact (normalize_text_chars raw c Hc).
  - unfold normalize_text. apply strip_trimmed.
Qed.

Lemma normalize_text_ascii_no_blank_run_witness :
  forallb is_ascii (lit "a" ++ [LF; LF; LF; SPACE; LF; LF] ++ lit "b") = true
  /\ blank_run 0 (normalize_text
                    (lit "a" ++ [LF; LF; LF; SPACE; LF; LF] ++ lit "b"))
     = false.
Proof.
  split; [reflexivity|].
  apply (normalize_text_ascii_no_blank_run
           (lit "a" ++ [LF; LF; LF; SPACE; LF; LF] ++ lit "b")).
  reflexivity.
Defined.

(** ** The chunks of the segmenter *)

Section ChunkOrigin.
Variable keep : str -> bool.
Variable text_lines : list str.

Lemma flush_origin (st : segmenter) :
  Forall (stripped_line_of text_lines) (seg_current st) ->
  Forall (chunk_from keep text_lines) (seg_chunks st) ->
  seg_current (flush_with keep st) = []
  /\ Forall (chunk_from keep text_lines) (seg_chunks (flush_with keep st)).
Proof.
  intros Hc Hk. unfold flush_with.
  destruct (seg_current st) as [|l ls] eqn:E; [now rewrite E|].
  cbn [seg_current seg_chunks]. split; [reflexivity|].
  fold (chunk_of (l :: ls)).
  destruct (keep (chunk_of (l :: ls))) eqn:Ek; [|exact Hk].
  apply Forall_app. split; [exact Hk|]. constructor; [|constructor].
  exists (l :: ls). repeat split; try assumption. discriminate.
Qed.

Lemma step_origin (st : segmenter) (line : str) :
  In line text_lines ->
  Forall (stripped_line_of text_lines) (seg_current st) ->
  Forall (chunk_from keep text_lines) (seg_chunks st) ->
  Forall (stripped_line_of text_lines) (seg_current (step_with keep st line))
  /\ Forall (chunk_from keep text_lines)
            (seg_chunks (step_with keep st line)).
Proof.
  intros Hl Hc Hk. unfold step_with.
  destruct (flush_origin st Hc Hk) as [F1 F2].
  destruct (strip line) as [|c stripped] eqn:Es.
  - rewrite F1. split; [constructor|exact F2].
  - assert (Hnew : stripped_line_of text_lines (c :: stripped)).
    { split; [discriminate|]. exists line. now rewrite Es. }
    destruct (startswith (c :: stripped) (lit "-")
              && match seg_current st with [] => false | _ => true end);
      cbn [seg_current seg_chunks].
    + rewrite F1. cbn [app].
      split; [apply Forall_cons; [exact Hnew|constructor]|exact F2].
    + split; [|exact Hk]. apply Forall_app. split; [exact Hc|].
      apply Forall_cons; [exact Hnew|constructor].
Qed.

Lemma fold_origin (lines : list str) : forall st : segmenter,
  incl lines text_lines ->
  Forall (stripped_line_of text_lines) (seg_current st) ->
  Forall (chunk_from keep text_lines) (seg_chunks st) ->
  Forall (stripped_line_of text_lines)
         (seg_current (fold_left (step_with keep) lines st))
  /\ Forall (chunk_from keep text_lines)
            (seg_chunks (fold_left (step_with keep) lines st)).
Proof.
  induction lines as [|line lines IH]; intros st Hin Hc Hk; simpl;
    [now split|].
  destruct (step_origin st line (Hin line (or_introl eq_refl)) Hc Hk)
    as [S1 S2].
  apply IH; [|exact S1|exact S2]. intros l Hl. apply Hin. now right.
Qed.
End ChunkOrigin.

Lemma segment_with_origin (keep : str -> bool) (text : str) (chunk : str) :
  In chunk (segment_with keep text) ->
  chunk_from keep (splitlines text) chunk.
Proof.
  unfold segment_with.
  destruct (fold_origin keep (splitlines text) (splitlines text)
                        (Segmenter [] []) (incl_refl _)
                        (Forall_nil _) (Forall_nil _)) as [F1 F2].
  destruct (flush_origin keep (splitlines text) _ F1 F2) as [_ F].
  rewrite Forall_forall in F. apply F.
Qed.

(** Replacing the runs of white space by one space each. *)

Lemma ends_space_dropwhile (s : str) :
  ends_space true s = ends_space true (dropwhile isspace s).
Proof.
  induction s as [|c s IH]; cbn [ends_space dropwhile]; [reflexivity|].
  destruct (isspace c) eqn:E; [exact IH|].
  cbn [ends_space]. now rewrite E.
Qed.

Lemma sub_spaces_ends (s : str) : forall b,
  ends_space b (re_sub match_spaces2 (lit " ") s) = ends_space b s.
Proof.
  unfold re_sub. change (lit " ") with [SPACE].
  assert (G : forall n s b,
             length s <= n ->
             ends_space b (sub_from match_spaces2 [SPACE] 0 s)
             = ends_space b s).
  { induction n as [|n IH]; intros t b Hlen.
    - destruct t; [reflexivity|simpl in Hlen; lia].
    - destruct t as [|c rest]; [reflexivity|].
      cbn [sub_from]. unfold match_spaces2 at 1.
      set (r := length (takewhile isspace (c :: rest))) in *.
      destruct (Nat.leb_spec 2 r) as [H2|H2].
      + destruct r as [|r'] eqn:Er; [lia|].
        rewrite sub_from_skipn.
        change (skipn r' rest) with (skipn (S r') (c :: rest)).
        unfold r in Er. rewrite <- Er, skipn_takewhile.
        assert (Hc : isspace c = true).
        { simpl in Er. destruct (isspace c); [reflexivity|discriminate]. }
        cbn [app ends_space]. change (isspace SPACE) with true.
        rewrite Hc, IH.
        * cbn [dropwhile]. rewrite Hc. symmetry. apply ends_space_dropwhile.
        * pose proof (length_dropwhile isspace (c :: rest)) as Hd.
          cbn [dropwhile] in *. rewrite Hc in *.
          pose proof (length_dropwhile isspace rest). simpl in Hlen. lia.
      + cbn [ends_space]. apply IH. simpl in Hlen. lia. }
  intros b. apply (G (length s)). lia.
Qed.

Lemma ends_space_rev (s : str) : forall b,
  ends_space b s
  = match hd_error (rev s) with Some c => isspace c | None => b end.
Proof.
  induction s as [|c s IH]; intros b; [reflexivity|].
  cbn [ends_space rev]. rewrite IH.
  destruct (rev s) as [|d u]; reflexivity.
Qed.

Lemma sub_spaces_no_run (s : str) :
  space_run false (re_sub match_spaces2 (lit " ") s) = false.
Proof.
  unfold re_sub. change (lit " ") with [SPACE].
  assert (G : forall n s prev,
             length s <= n ->
             prev = false \/ takewhile isspace s = [] ->
             space_run prev (sub_from match_spaces2 [SPACE] 0 s) = false).
  { induction n as [|n IH]; intros t prev Hlen Hp.
    - destruct t; [reflexivity|simpl in Hlen; lia].
    - destruct t as [|c rest]; [reflexivity|].
      cbn [sub_from]. unfold match_spaces2 at 1.
      set (r := length (takewhile isspace (c :: rest))) in *.
      destruct (Nat.leb_spec 2 r) as [H2|H2].
      + destruct r as [|r'] eqn:Er; [lia|].
        assert (Hprev : prev = false).
        { destruct Hp as [Hp|Hp]; [exact Hp|].
          unfold r in Er. rewrite Hp in Er. discriminate. }
        subst prev. rewrite sub_from_skipn.
        change (skipn r' rest) with (skipn (S r') (c :: rest)).
        unfold r in Er. rewrite <- Er, skipn_takewhile.
        cbn [app space_run]. change (isspace SPACE) with true. cbn [orb].
        apply IH.
        * pose proof (length_dropwhile isspace (c :: rest)) as Hd.
          assert (Hc : isspace c = true).
          { simpl in Er. destruct (isspace c); [reflexivity|discriminate]. }
          cbn [dropwhile] in *. rewrite Hc in *.
          pose proof (length_dropwhile isspace rest). simpl in Hlen. lia.
        * right. apply takewhile_dropwhile.
      + cbn [space_run]. destruct (isspace c) eqn:Hc.
        * assert (Hprev : prev = false).
          { destruct Hp as [Hp|Hp]; [exact Hp|].
            cbn [takewhile] in Hp. rewrite Hc in Hp. discriminate. }
          subst prev. cbn [orb]. apply IH; [simpl in Hlen; lia|].
          right. unfold r in H2. cbn [takewhile] in H2. rewrite Hc in H2.
          simpl in H2. destruct (takewhile isspace rest); [reflexivity|].
          simpl in H2. lia.
        * apply IH; [simpl in Hlen; lia|]. now left. }
  apply (G (length s)); [lia|now left].
Qed.

Lemma sub_spaces_trimmed (s : str) :
  trimmed s -> trimmed (re_sub match_spaces2 (lit " ") s).
Proof.
  intros [Hh He]. split; intros c Hc.
  - destruct s as [|a rest]; [discriminate|].
    assert (Ha : isspace a = false) by now apply Hh.
    unfold re_sub in Hc. cbn [sub_from] in Hc.
    unfold match_spaces2 at 1 in Hc. cbn [takewhile] in Hc.
    rewrite Ha in Hc. simpl in Hc. congruence.
  - pose proof (sub_spaces_ends s false) as E.
    rewrite !ends_space_rev, Hc in E. rewrite E.
    destruct (hd_error (rev s)) as [d|] eqn:Ed; [now apply He|reflexivity].
Qed.

(** Every chunk of [split_chunks] has at least five words, neither starts
    nor ends with white space, and has no two white space characters side
    by side. *)
Theorem split_chunks_shape (text chunk : str) :
  In chunk (split_chunks text) ->
  5 <= length (split chunk)
  /\ trimmed chunk
  /\ space_run false chunk = false.
Proof.
  intros Hin. apply segment_with_origin in Hin.
  destruct Hin as [current [_ [_ [-> Hkeep]]]].
  split; [now apply Nat.leb_le|]. unfold chunk_of. split.
  - apply sub_spaces_trimmed, strip_trimmed.
  - apply sub_spaces_no_run.
Qed.

Lemma split_chunks_shape_witness :
  In (lit "- Built Y with many new tools")
     (split_chunks bullet_example_long)
  /\ 5 <= length (split (lit "- Built Y with many new tools"))
  /\ trimmed (lit "- Built Y with many new tools")
  /\ space_run false (lit "- Built Y with many new tools") = false.
Proof.
  assert (H : In (lit "- Built Y with many new tools")
                 (split_chunks bullet_example_long))
    by (vm_compute; right; left; reflexivity).
  split; [exact H|].
  exact (split_chunks_shape bullet_example_long _ H).
Defined.

Lemma in_join (sep : str) (parts : list str) (c : char) :
  In c (join sep parts) -> In c sep \/ exists p, In p parts /\ In c p.
Proof.
  induction parts as [|p parts IH]; cbn [join]; [intros []|].
  destruct parts as [|q parts].
  - intros H. right. exists p. split; [now left|exact H].
  - rewrite !in_app_iff. intros [H|[H|H]].
    + right. exists p. split; [now left|exact H].
    + now left.
    + destruct (IH H) as [Hs|[r [Hr Hc]]]; [now left|].
      right. exists r. split; [now right|exact Hc].
Qed.

(** The lines of [splitlines] are made of characters of the text that are
    no line boundaries. *)
Lemma in_splitlines_from (s : str) : forall (after_cr : bool) (cur line : str)
    (c : char),
  In line (splitlines_from after_cr cur s) -> In c line ->
  In c cur \/ (In c s /\ is_linebreak c = false).
Proof.
  induction s as [|a s IH]; intros after_cr cur line c; cbn [splitlines_from].
  - destruct cur as [|d cur]; [intros []|].
    intros [<-|[]] Hc. left. now apply in_rev.
  - destruct (after_cr && (a =? LF)%N).
    + intros Hl Hc. destruct (IH _ _ _ _ Hl Hc) as [H|[H1 H2]];
        [now left|right; split; [now right|exact H2]].
    + destruct (is_linebreak a) eqn:Ea.
      * intros [<-|Hl] Hc; [left; now apply in_rev|].
        destruct (IH _ _ _ _ Hl Hc) as [[]|[H1 H2]].
        right. split; [now right|exact H2].
      * intros Hl Hc. destruct (IH _ _ _ _ Hl Hc) as [[<-|H]|[H1 H2]].
        -- right. split; [now left|exact Ea].
        -- now left.
        -- right. split; [now right|exact H2].
Qed.

Lemma chunk_from_chars (keep : str -> bool) (text chunk : str) (c : char) :
  chunk_from keep (splitlines text) chunk -> In c chunk ->
  is_linebreak c = false /\ (c = SPACE \/ In c text).
Proof.
  intros Hin Hc.
  destruct Hin as [current [_ [Hlines [-> _]]]].
  assert (Hsp : In c (lit " ") -> is_linebreak c = false
                                  /\ (c = SPACE \/ In c text)).
  { intros [<-|[]]. split; [reflexivity|now left]. }
  unfold chunk_of in Hc. apply in_re_sub in Hc.
  destruct Hc as [Hc|Hc]; [now apply Hsp|].
  apply in_strip, in_join in Hc.
  destruct Hc as [Hc|[l [Hl Hc]]]; [now apply Hsp|].
  rewrite Forall_forall in Hlines.
  destruct (Hlines l Hl) as [_ [line [Hline ->]]].
  apply in_strip in Hc.
  destruct (in_splitlines_from text false [] line c Hline Hc)
    as [[]|[H1 H2]].
  split; [exact H2|now right].
Qed.

(** The chunks that [main] hands to [build_pack] hold ASCII characters
    only. *)
Lemma pipeline_chunks_ascii (raw : str) :
  ascii_chunks (split_chunks (normalize_text raw)) = true.
Proof.
  unfold ascii_chunks, ascii_text. apply forallb_forall. intros chunk Hin.
  apply forallb_forall. intros c Hc.
  apply (segment_with_origin five_words) in Hin.
  destruct (chunk_from_chars _ _ _ c Hin Hc) as [_ [->|Hn]];
    [reflexivity|].
  exact (normalize_text_chars raw c Hn).
Qed.

(** Every chunk of [split_chunks] is one line: it holds no line boundary,
    and each of its characters is a space or a character of the text. *)
Theorem split_chunks_chars (text chunk : str) (c : char) :
  In chunk (split_chunks text) -> In c chunk ->
  is_linebreak c = false /\ (c = SPACE \/ In c text).
Proof.
  intros Hin Hc. apply segment_with_origin in Hin.
  exact (chunk_from_chars five_words text chunk c Hin Hc).
Qed.

Lemma split_chunks_chars_witness :
  In (lit "- Built Y with many new tools")
     (split_chunks bullet_example_long)
  /\ In HYPHEN (lit "- Built Y with many new tools")
  /\ is_linebreak HYPHEN = false
  /\ (HYPHEN = SPACE \/ In HYPHEN bullet_example_long).
Proof.
  assert (H : In (lit "- Built Y with many new tools")
                 (split_chunks bullet_example_long))
    by (vm_compute; right; left; reflexivity).
  assert (Hc : In HYPHEN (lit "- Built Y with many new tools"))
    by (left; reflexivity).
  split; [exact H|]. split; [exact Hc|].
  exact (split_chunks_chars bullet_example_long _ HYPHEN H Hc).
Defined.

(** ** The tokens *)

Lemma takewhile_forallb (p : char -> bool) (s : str) :
  forallb p (takewhile p s) = true.
Proof.
  induction s as [|c s IH]; simpl; [reflexivity|].
  destruct (p c) eqn:E; simpl; [now rewrite E|reflexivity].
Qed.

Lemma firstn_takewhile (p : char -> bool) (s : str) :
  firstn (length (takewhile p s)) s = takewhile p s.
Proof.
  induction s as [|c s IH]; simpl; [reflexivity|].
  destruct (p c); simpl; [now rewrite IH|reflexivity].
Qed.

(** What TOKEN_PATTERN matches at the head of a text. *)
Lemma match_token_shape (t : str) (n : nat) :
  match_token t = Some n ->
  exists a b,
    a <> []
    /\ forallb is_alnum a = true
    /\ forallb is_alnum b = true
    /\ (firstn n t = a \/ (b <> [] /\ firstn n t = a ++ APOSTROPHE :: b))
    /\ forall c, In c (a ++ b) -> In c t.
Proof.
  unfold match_token.
  set (a := takewhile is_alnum t).
  assert (Ha : forallb is_alnum a = true) by apply takewhile_forallb.
  assert (Hat : forall c, In c a -> In c t) by (intro; apply in_takewhile).
  assert (Hsplit : t = a ++ dropwhile is_alnum t)
    by (symmetry; apply takewhile_dropwhile_app).
  destruct (length a) as [|n1] eqn:En; [discriminate|].
  assert (Hne : a <> []) by (intros E; rewrite E in En; discriminate).
  assert (Hfirst : firstn (S n1) t = a)
    by (rewrite <- En; apply firstn_takewhile).
  assert (Hplain : Some (S n1) = Some n ->
            exists a b,
              a <> [] /\ forallb is_alnum a = true
              /\ forallb is_alnum b = true
              /\ (firstn n t = a
                  \/ (b <> [] /\ firstn n t = a ++ APOSTROPHE :: b))
              /\ forall c, In c (a ++ b) -> In c t).
  { intros [= <-]. exists a, []. rewrite app_nil_r. auto 6. }
  rewrite <- En at 1. unfold a at 1. rewrite skipn_takewhile.
  destruct (dropwhile is_alnum t) as [|q rest] eqn:Ed; [exact Hplain|].
  set (b := takewhile is_alnum rest).
  destruct ((q =? APOSTROPHE)%N && (0 <? length b)) eqn:E; [|exact Hplain].
  apply andb_prop in E. destruct E as [Eq Eb].
  apply N.eqb_eq in Eq. subst q. apply Nat.ltb_lt in Eb.
  intros [= <-]. exists a, b. split; [exact Hne|]. split; [exact Ha|].
  split; [apply takewhile_forallb|]. split.
  - right. split; [intros E; rewrite E in Eb; simpl in Eb; lia|].
    replace (S (n1 + 1 + length b)) with (length a + S (length b)) by lia.
    rewrite Hsplit at 1. rewrite firstn_app_2.
    f_equal. cbn [firstn]. f_equal. apply firstn_takewhile.
  - intros c Hc. rewrite Hsplit. apply in_app_iff in Hc.
    rewrite in_app_iff. destruct Hc as [Hc|Hc]; [now left|].
    right. right. now apply in_takewhile in Hc.
Qed.

(** Every match of [finditer] is a match of the pattern at some place of
    the text. *)
Lemma finditer_from_origin (m : str -> option nat) (s : str) :
  forall (skip : nat) (tok : str),
    In tok (finditer_from m skip s) ->
    exists pre t n, s = pre ++ t /\ m t = Some (S n) /\ tok = firstn (S n) t.
Proof.
  induction s as [|c s IH]; intros skip tok; cbn [finditer_from];
    [intros []|].
  assert (Hrest : forall k, In tok (finditer_from m k s) ->
            exists pre t n,
              c :: s = pre ++ t /\ m t = Some (S n) /\ tok = firstn (S n) t).
  { intros k H. destruct (IH _ _ H) as [pre [t [n [E [Hm Ht]]]]].
    exists (c :: pre), t, n. rewrite E. auto. }
  destruct skip as [|k]; [|apply Hrest].
  destruct (m (c :: s)) as [[|n]|] eqn:Em; try apply Hrest.
  intros [<-|H]; [|exact (Hrest _ H)].
  exists [], (c :: s), n. auto.
Qed.

Lemma lower_alnum (s : str) (c : char) :
  In c (lower s) -> is_alnum c = true -> is_lower_alnum c = true.
Proof.
  unfold lower. rewrite in_map_iff. intros [c0 [<- _]].
  unfold lower_char, is_alnum, is_lower_alnum, is_digit.
  destruct (N.leb_spec 65 c0), (N.leb_spec c0 90); cbn [andb];
    repeat match goal with
           | |- context [N.leb ?x ?y] => destruct (N.leb_spec x y)
           end; cbn [andb orb]; try reflexivity; try lia; intros; try discriminate.
Qed.

Lemma is_stopword_spec (token : str) :
  is_stopword token = false -> ~ In token STOPWORDS.
Proof.
  unfold is_stopword. intros H Hin.
  assert (E : existsb (str_eqb token) STOPWORDS = true).
  { apply existsb_exists. exists token. split; [exact Hin|].
    unfold str_eqb. destruct (list_eq_dec N.eq_dec token token); congruence. }
  congruence.
Qed.

(** Every token that [tokenize] returns for a text of ASCII characters is
    made of digits and small letters with at most one apostrophe inside, is
    not made of digits only, and is no stopword. *)
Theorem tokenize_tokens (text token : str) :
  ascii_text text = true ->
  In token (tokenize text) ->
  token_shape token /\ isdigit token = false /\ ~ In token STOPWORDS.
Proof.
  intros _. unfold tokenize. rewrite filter_In. intros [Hin Hf].
  apply andb_prop in Hf. destruct Hf as [Hd Hs].
  apply negb_true_iff in Hd, Hs.
  split; [|split; [exact Hd|now apply is_stopword_spec]].
  apply finditer_from_origin in Hin.
  destruct Hin as [pre [t [n [E [Hm ->]]]]].
  destruct (match_token_shape t (S n) Hm) as [a [b [Ha [Fa [Fb [Hs' Hc]]]]]].
  assert (Hlow : forall l, (forall c, In c l -> In c (a ++ b)) ->
                           forallb is_alnum l = true ->
                           forallb is_lower_alnum l = true).
  { intros l Hl Fl. rewrite forallb_forall in Fl |- *. intros c Hcl.
    apply (lower_alnum text); [|now apply Fl].
    rewrite E. apply in_app_iff. right. apply Hc, Hl, Hcl. }
  exists a, b. split; [exact Ha|].
  split; [apply Hlow; [intros c H; apply in_app_iff; now left|exact Fa]|].
  split; [apply Hlow; [intros c H; apply in_app_iff; now right|exact Fb]|].
  exact Hs'.
Qed.

Lemma tokenize_tokens_witness :
  ascii_text (lit "The QUICK brown fox's 2024 den") = true
  /\ In (lit "quick") (tokenize (lit "The QUICK brown fox's 2024 den"))
  /\ token_shape (lit "quick")
  /\ isdigit (lit "quick") = false
  /\ ~ In (lit "quick") STOPWORDS.
Proof.
  assert (H : In (lit "quick")
                 (tokenize (lit "The QUICK brown fox's 2024 den")))
    by (vm_compute; left; reflexivity).
  assert (Hascii : ascii_text (lit "The QUICK brown fox's 2024 den") = true)
    by (vm_compute; reflexivity).
  split; [exact Hascii|]. split; [exact H|].
  exact (tokenize_tokens (lit "The QUICK brown fox's 2024 den") _ Hascii H).
Defined.

(** ** The order of strings *)

Lemma str_ltb_irrefl (a : str) : str_ltb a a = false.
Proof.
  induction a as [|x a IH]; [reflexivity|].
  cbn [str_ltb]. rewrite N.ltb_irrefl, N.eqb_refl, IH. reflexivity.
Qed.

Lemma str_ltb_trans (a : str) : forall b c,
  str_ltb a b = true -> str_ltb b c = true -> str_ltb a c = true.
Proof.
  induction a as [|x a IH]; intros [|y b] [|z c]; cbn [str_ltb];
    try discriminate; try reflexivity.
  intros H1 H2.
  apply orb_true_iff in H1. apply orb_true_iff in H2.
  apply orb_true_iff.
  destruct H1 as [H1|H1], H2 as [H2|H2].
  - left. apply N.ltb_lt in H1, H2. apply N.ltb_lt. lia.
  - apply andb_prop in H2. destruct H2 as [E _].
    apply N.eqb_eq in E. subst z. now left.
  - apply andb_prop in H1. destruct H1 as [E _].
    apply N.eqb_eq in E. subst y. now left.
  - apply andb_prop in H1. apply andb_prop in H2.
    destruct H1 as [E1 H1], H2 as [E2 H2].
    apply N.eqb_eq in E1, E2. subst y z. right.
    rewrite N.eqb_refl. cbn [andb]. exact (IH _ _ H1 H2).
Qed.

Lemma str_ltb_total (a : str) : forall b,
  str_ltb a b = false -> a <> b -> str_ltb b a = true.
Proof.
  induction a as [|x a IH]; intros [|y b]; cbn [str_ltb];
    try discriminate; try reflexivity; try congruence.
  intros H Hne. apply orb_false_elim in H. destruct H as [H1 H2].
  apply N.ltb_ge in H1. apply orb_true_iff.
  destruct (N.eqb_spec x y) as [->|Hxy].
  - right. rewrite N.eqb_refl. cbn [andb] in *.
    apply IH; [exact H2|congruence].
  - left. apply N.ltb_lt. lia.
Qed.

Section SortedTotal.
Variable A : Type.
Variable ltb : A -> A -> bool.
Hypothesis ltb_trans :
  forall x y z, ltb x y = true -> ltb y z = true -> ltb x z = true.
Hypothesis ltb_total : forall x y, ltb x y = false -> x <> y -> ltb y x = true.

Lemma insort_strongly_sorted (x : A) (l : list A) :
  StronglySorted (fun a b => ltb a b = true) l -> ~ In x l ->
  StronglySorted (fun a b => ltb a b = true) (insort ltb x l).
Proof.
  induction 1 as [|y l Hs IH Hy]; intros Hx; cbn [insort].
  - repeat constructor.
  - rewrite Forall_forall in Hy. destruct (ltb y x) eqn:E.
    + constructor; [apply IH; intros H; apply Hx; now right|].
      rewrite Forall_forall. intros z Hz.
      apply (Permutation_in _ (insort_perm ltb x l)) in Hz.
      destruct Hz as [<-|Hz]; [exact E|now apply Hy].
    + assert (Hxy : ltb x y = true).
      { apply ltb_total; [exact E|]. intros ->. apply Hx. now left. }
      constructor; [constructor; [exact Hs|now apply Forall_forall]|].
      constructor; [exact Hxy|]. rewrite Forall_forall. intros z Hz.
      apply (ltb_trans x y z); [exact Hxy|now apply Hy].
Qed.

Lemma sorted_strongly_sorted (l : list A) :
  NoDup l -> StronglySorted (fun a b => ltb a b = true) (sorted ltb l).
Proof.
  induction l as [|x l IH]; intros Hnd; cbn [sorted fold_right];
    [constructor|].
  inversion Hnd as [|? ? Hx Hl]; subst.
  apply insort_strongly_sorted; [now apply IH|].
  intros Hin. apply Hx. now apply in_sorted in Hin.
Qed.
End SortedTotal.

(** ** The vocabulary of the pack *)

Lemma maps_pointwise (A B C D : Type) (f1 : A -> C) (f2 : A -> D)
    (h1 : B -> C) (h2 : B -> D) (l : list A) : forall l' : list B,
  map f1 l = map h1 l' -> map f2 l = map h2 l' ->
  (forall e, In e l -> exists q, In q l' /\ f1 e = h1 q /\ f2 e = h2 q)
  /\ (forall q, In q l' -> exists e, In e l /\ f1 e = h1 q /\ f2 e = h2 q).
Proof.
  induction l as [|a l IH]; intros [|b l']; simpl; try discriminate.
  - intros _ _. split; intros ? [].
  - intros [= E1 R1] [= E2 R2]. destruct (IH l' R1 R2) as [I1 I2]. split.
    + intros e [<-|He]; [exists b; auto|].
      destruct (I1 e He) as [q [Hq Hq']]. exists q. auto.
    + intros q [<-|Hq]; [exists a; auto|].
      destruct (I2 q Hq) as [e [He He']]. exists e. auto.
Qed.

Lemma vocab_counter_ok (filtered : list (str * list str)) :
  counter_ok str_eq_dec (vocab_counter filtered).
Proof.
  unfold vocab_counter.
  destruct (fold_counter_update filtered (counter_ok_nil str_eq_dec))
    as [H _].
  exact H.
Qed.

Lemma counter_incr_sum (c : dict str nat) (k : str) :
  list_sum (map snd (counter_incr str_eq_dec c k))
  = list_sum (map snd c) + 1.
Proof.
  unfold counter_incr, counter_get.
  induction c as [|[k0 n0] c IH]; cbn [dict_get dict_set map snd list_sum
                                       fold_right]; [reflexivity|].
  destruct (str_eq_dec k0 k) as [E|E]; cbn [map snd list_sum fold_right].
  - fold (list_sum (map snd c)). lia.
  - fold (list_sum (map snd c)).
    fold (list_sum (map snd (dict_set str_eq_dec c k
             (match dict_get str_eq_dec c k with
              | Some n => n
              | None => 0
              end + 1)))).
    rewrite IH. lia.
Qed.

Lemma counter_update_sum (ks : list str) : forall c : dict str nat,
  list_sum (map snd (counter_update str_eq_dec c ks))
  = list_sum (map snd c) + length ks.
Proof.
  unfold counter_update.
  induction ks as [|k ks IH]; intros c; cbn [fold_left length]; [lia|].
  rewrite IH, counter_incr_sum. lia.
Qed.

Lemma list_sum_perm (l l' : list nat) :
  Permutation l l' -> list_sum l = list_sum l'.
Proof.
  induction 1; cbn [list_sum fold_right] in *; try fold (list_sum l) in *;
    try fold (list_sum l') in *; lia.
Qed.

Lemma seq_strongly_sorted (n : nat) : forall a, StronglySorted lt (seq a n).
Proof.
  induction n as [|n IH]; intros a; cbn [seq]; constructor; [apply IH|].
  rewrite Forall_forall. intros i Hi. apply in_seq in Hi. lia.
Qed.

Lemma lt_sorted_unique (l1 : list nat) : forall l2,
  StronglySorted lt l1 -> StronglySorted lt l2 ->
  (forall i, In i l1 <-> In i l2) -> l1 = l2.
Proof.
  induction l1 as [|a l1 IH]; intros l2 H1 H2 Heq.
  - destruct l2 as [|b l2]; [reflexivity|].
    exfalso. apply (proj2 (Heq b)). now left.
  - destruct l2 as [|b l2]; [exfalso; apply (proj1 (Heq a)); now left|].
    apply StronglySorted_inv in H1, H2.
    destruct H1 as [S1 F1], H2 as [S2 F2].
    rewrite Forall_forall in F1, F2.
    assert (Hab : a = b).
    { destruct (proj1 (Heq a) (or_introl eq_refl)) as [E|Hin]; [auto|].
      destruct (proj2 (Heq b) (or_introl eq_refl)) as [E|Hin']; [auto|].
      specialize (F1 _ Hin'). specialize (F2 _ Hin). lia. }
    subst b. f_equal. apply IH; [exact S1|exact S2|].
    intros i. split; intros Hi.
    + destruct (proj1 (Heq i) (or_intror Hi)) as [E|Hin]; [|exact Hin].
      subst i. specialize (F1 _ Hi). lia.
    + destruct (proj2 (Heq i) (or_intror Hi)) as [E|Hin]; [|exact Hin].
      subst i. specialize (F2 _ Hi). lia.
Qed.

Lemma key_sorted_keys (V : Type) (l : list (nat * V)) :
  StronglySorted key_lt l -> StronglySorted lt (map fst l).
Proof.
  induction 1 as [|a l Hs IH Ha]; cbn [map]; constructor; [exact IH|].
  rewrite Forall_forall in Ha |- *. intros i Hi.
  apply in_map_iff in Hi. destruct Hi as [b [<- Hb]]. now apply Ha.
Qed.

Lemma filter_map_length (A B : Type) (g : A -> B) (f : B -> bool)
    (l : list A) :
  length (filter f (map g l)) = length (filter (fun x => f (g x)) l).
Proof.
  induction l as [|x l IH]; cbn [map filter]; [reflexivity|].
  destruct (f (g x)); cbn [length]; now rewrite IH.
Qed.

Section PackContents.
Context {F : Type} {fl : PyFloat F}.
Variable rt : Runtime.
Variable chunk_texts : list str.
Variable p : pack F.
Hypothesis Hrun : build_pack rt chunk_texts = Return p.

(** An entry of the pack is a chunk of the input with at least five tokens,
    and its [tf] is made from its tokens. *)
Lemma pack_entry (e : chunk_entry F) :
  In e (chunks p) ->
  In (text e) chunk_texts
  /\ 5 <= length (tokenize (text e))
  /\ tf e = sorted (pair_ltb Nat.ltb)
                   (tf_items (token_to_index (vocab p)) (tokenize (text e))).
Proof.
  intros He.
  destruct (pack_shape rt chunk_texts p Hrun) as [_ [_ [_ [X [T _]]]]].
  cbv zeta in T. unfold tf_vectors in T.
  destruct (maps_pointwise _ _ _ _ _ _ _ _ (chunks p) _ X T) as [I _].
  destruct (I e He) as [q [Hq [E1 E2]]].
  apply filtered_chunks_spec in Hq. destruct Hq as [H1 [H2 H3]].
  rewrite E1, E2, <- H2. auto.
Qed.

Lemma pack_entry_of_chunk (c : str) :
  In c chunk_texts -> 5 <= length (tokenize c) ->
  exists e, In e (chunks p) /\ text e = c.
Proof.
  intros Hc Hlen.
  destruct (pack_shape rt chunk_texts p Hrun) as [_ [_ [_ [X [T _]]]]].
  cbv zeta in T. unfold tf_vectors in T.
  destruct (maps_pointwise _ _ _ _ _ _ _ _ (chunks p) _ X T) as [_ I].
  assert (Hq : In (c, tokenize c) (filtered_chunks chunk_texts))
    by (apply filtered_chunks_spec; auto).
  destruct (I _ Hq) as [e [He [E _]]]. exists e. auto.
Qed.

Lemma vocab_nodup : NoDup (vocab p).
Proof.
  destruct (pack_shape rt chunk_texts p Hrun) as [_ [_ [V _]]].
  rewrite V. eapply Permutation_NoDup.
  - apply Permutation_sym, sorted_perm.
  - apply vocab_counter_ok.
Qed.

(** The vocabulary is in strictly increasing order of its strings, compared
    code point by code point; no token is there twice. *)
Theorem vocab_sorted :
  StronglySorted (fun a b => str_ltb a b = true) (vocab p)
  /\ NoDup (vocab p).
Proof.
  split; [|exact vocab_nodup].
  destruct (pack_shape rt chunk_texts p Hrun) as [_ [_ [V _]]].
  rewrite V. apply sorted_strongly_sorted.
  - apply str_ltb_trans.
  - apply str_ltb_total.
  - apply vocab_counter_ok.
Qed.

Lemma token_in_vocab (e : chunk_entry F) (token : str) :
  In e (chunks p) -> In token (tokenize (text e)) -> In token (vocab p).
Proof.
  intros He Ht.
  destruct (pack_shape rt chunk_texts p Hrun) as [_ [_ [V _]]].
  rewrite V, in_sorted, vocab_counter_keys.
  destruct (pack_entry e He) as [H1 [H2 _]].
  exists (text e, tokenize (text e)). split; [|exact Ht].
  apply filtered_chunks_spec. auto.
Qed.

(** For chunk texts of ASCII characters, the vocabulary holds the tokens
    of the chunks of the pack, and nothing else. *)
Theorem vocab_tokens (token : str) :
  ascii_chunks chunk_texts = true ->
  (In token (vocab p)
   <-> exists e, In e (chunks p) /\ In token (tokenize (text e))).
Proof.
  intros _. destruct (pack_shape rt chunk_texts p Hrun) as [_ [_ [V _]]].
  rewrite V, in_sorted, vocab_counter_keys. split.
  - intros [q [Hq Ht]]. apply filtered_chunks_spec in Hq.
    destruct Hq as [H1 [H2 H3]].
    destruct (pack_entry_of_chunk (fst q) H1) as [e [He E]];
      [now rewrite <- H2|].
    exists e. split; [exact He|]. now rewrite E, <- H2.
  - intros [e [He Ht]]. rewrite <- vocab_counter_keys, <- in_sorted, <- V.
    exact (token_in_vocab e token He Ht).
Qed.

(** Every token of the vocabulary is a token of a chunk of the pack. *)
Lemma vocab_token_chunk (token : str) :
  In token (vocab p) ->
  exists e, In e (chunks p) /\ In token (tokenize (text e)).
Proof.
  destruct (pack_shape rt chunk_texts p Hrun) as [_ [_ [V _]]].
  rewrite V, in_sorted, vocab_counter_keys.
  intros [q [Hq Ht]]. apply filtered_chunks_spec in Hq.
  destruct Hq as [H1 [H2 H3]].
  destruct (pack_entry_of_chunk (fst q) H1) as [e [He E]];
    [now rewrite <- H2|].
  exists e. split; [exact He|]. now rewrite E, <- H2.
Qed.

(** Every token of a chunk of the pack has its place in the vocabulary, and
    [token_to_index] gives that place. *)
Lemma token_place (e : chunk_entry F) (token : str) :
  In e (chunks p) -> In token (tokenize (text e)) ->
  nth_error (vocab p) (index_of (token_to_index (vocab p)) token)
  = Some token.
Proof.
  intros He Ht.
  pose proof (token_in_vocab e token He Ht) as Hv.
  destruct (token_to_index_lookup (vocab p) token Hv) as [idx [H1 [_ H2]]].
  unfold index_of. now rewrite H1.
Qed.

Lemma counter_of_list (tokens : list str) (t : str) (n : nat) :
  In (t, n) (counter_update str_eq_dec [] tokens)
  <-> In t tokens /\ n = count_occ str_eq_dec tokens t.
Proof.
  pose proof (counter_ok_update tokens (counter_ok_nil str_eq_dec)) as Hok.
  assert (Hget : forall k, counter_get str_eq_dec
                             (counter_update str_eq_dec [] tokens) k
                           = count_occ str_eq_dec tokens k).
  { intros k. rewrite counter_get_update. reflexivity. }
  split.
  - intros Hin. destruct (counter_entry t n Hok Hin) as [E Hpos].
    rewrite Hget in E. subst n. split; [|reflexivity].
    now apply (count_occ_In str_eq_dec).
  - intros [Hin ->].
    assert (Hk : In t (keys (counter_update str_eq_dec [] tokens))).
    { apply (in_keys_update _ _ (counter_ok_nil str_eq_dec)). now right. }
    unfold keys in Hk. rewrite in_map_iff in Hk.
    destruct Hk as [[t' n] [E Hin']]. simpl in E. subst t'.
    destruct (counter_entry t n Hok Hin') as [E _].
    rewrite Hget in E. now rewrite E.
Qed.

(** For chunk texts of ASCII characters, the [tf] of a chunk counts its
    tokens: it pairs the place of each token of the chunk in the vocabulary
    with the number of times the token is in the chunk, and has no other
    pair. *)
Theorem tf_counts (e : chunk_entry F) (idx count : nat) :
  ascii_chunks chunk_texts = true ->
  In e (chunks p) ->
  (In (idx, count) (tf e)
   <-> exists token,
         nth_error (vocab p) idx = Some token
         /\ In token (tokenize (text e))
         /\ count = count_occ str_eq_dec (tokenize (text e)) token).
Proof.
  intros _ He. destruct (pack_entry e He) as [_ [_ ->]].
  rewrite in_sorted. unfold tf_items. rewrite in_map_iff. split.
  - intros [[t n] [E Hin]]. simpl in E. injection E as <- <-.
    apply counter_of_list in Hin. destruct Hin as [Ht ->].
    exists t. split; [now apply (token_place e)|auto].
  - intros [token [Hnth [Ht ->]]].
    exists (token, count_occ str_eq_dec (tokenize (text e)) token).
    split; [|apply counter_of_list; auto]. simpl. f_equal.
    pose proof (token_place e token He Ht) as Hplace.
    apply (proj1 (NoDup_nth_error (vocab p)) vocab_nodup).
    + apply nth_error_Some. congruence.
    + congruence.
Qed.

(** The [tf] of a chunk is in strictly increasing order of its indices: no
    index is there twice. *)
Theorem tf_sorted (e : chunk_entry F) :
  In e (chunks p) -> StronglySorted key_lt (tf e).
Proof.
  intros He. destruct (pack_entry e He) as [_ [_ ->]].
  apply sorted_key_sorted. unfold tf_items. rewrite map_map. cbn [fst].
  pose proof (counter_ok_update (tokenize (text e))
                                (counter_ok_nil str_eq_dec)) as [Hnd _].
  rewrite <- (map_map fst (index_of (token_to_index (vocab p)))).
  apply NoDup_map_NoDup_ForallPairs; [|exact Hnd].
  intros t1 t2 H1 H2 E.
  assert (P1 : In t1 (tokenize (text e))).
  { apply (in_keys_update _ _ (counter_ok_nil str_eq_dec)) in H1.
    destruct H1 as [[]|H1]. exact H1. }
  assert (P2 : In t2 (tokenize (text e))).
  { apply (in_keys_update _ _ (counter_ok_nil str_eq_dec)) in H2.
    destruct H2 as [[]|H2]. exact H2. }
  pose proof (token_place e t1 He P1) as Q1.
  pose proof (token_place e t2 He P2) as Q2.
  rewrite E in Q1. congruence.
Qed.

(** For chunk texts of ASCII characters, the counts of the [tf] of a
    chunk add up to the number of its tokens. *)
Theorem tf_total (e : chunk_entry F) :
  ascii_chunks chunk_texts = true ->
  In e (chunks p) ->
  list_sum (map snd (tf e)) = length (tokenize (text e)).
Proof.
  intros _ He. destruct (pack_entry e He) as [_ [_ ->]].
  rewrite (list_sum_perm _ _ (Permutation_map snd (sorted_perm _ _))).
  unfold tf_items. rewrite map_map. cbn [snd].
  change (fun x : str * nat => snd x) with (@snd str nat).
  rewrite counter_update_sum. reflexivity.
Qed.

(** A chunk of the pack has an index in its [tf] exactly when it has the
    token of the vocabulary at that index. *)
Lemma has_index_token (e : chunk_entry F) (idx : nat) (token : str) :
  In e (chunks p) -> nth_error (vocab p) idx = Some token ->
  has_index idx (tf e)
  = if in_dec str_eq_dec token (tokenize (text e)) then true else false.
Proof.
  intros He Hnth. destruct (pack_entry e He) as [_ [_ Etf]].
  assert (Hiff : has_index idx (tf e) = true
                 <-> In token (tokenize (text e))).
  { rewrite Etf, has_index_tf_items, tf_items_indices. split.
    - intros [t [Ht Hi]]. pose proof (token_place e t He Ht) as Hp.
      rewrite Hi in Hp. congruence.
    - intros Ht. exists token. split; [exact Ht|].
      pose proof (token_place e token He Ht) as Hp.
      apply (proj1 (NoDup_nth_error (vocab p)) vocab_nodup).
      + apply nth_error_Some. congruence.
      + congruence. }
  destruct (in_dec str_eq_dec token (tokenize (text e))) as [Hin|Hout].
  - now apply Hiff.
  - destruct (has_index idx (tf e)); [|reflexivity].
    exfalso. now apply Hout, Hiff.
Qed.

(** [idf_pairs] has one pair for each index of the vocabulary, in the order
    of the indices. *)
Theorem idf_pairs_indices :
  keys (idf_pairs p) = seq 0 (length (vocab p)).
Proof.
  unfold keys. destruct (pack_shape rt chunk_texts p Hrun)
    as [_ [_ [_ [_ [_ [S [I _]]]]]]]. cbv zeta in I.
  apply lt_sorted_unique;
    [now apply key_sorted_keys|apply seq_strongly_sorted|].
  intros idx. rewrite in_seq, in_map_iff. split.
  - intros [[i v] [E Hin]]. simpl in E. subst i.
    apply I in Hin. destruct Hin as [Hpos _].
    apply df_count_pos in Hpos. destruct Hpos as [tfv [Htfv Hhas]].
    apply in_map_iff in Htfv. destruct Htfv as [e [<- He]].
    apply has_index_spec in Hhas. destruct Hhas as [c [Hc _]].
    destruct (tf_entry_facts rt chunk_texts p e idx c Hrun He Hc)
      as [_ [_ [t Ht]]].
    split; [lia|]. apply nth_error_Some. congruence.
  - intros [_ Hlt].
    destruct (nth_error (vocab p) idx) as [token|] eqn:Hnth;
      [|apply nth_error_Some in Hlt; contradiction].
    assert (Hv : In token (vocab p)) by (eapply nth_error_In; eauto).
    apply vocab_token_chunk in Hv. destruct Hv as [e [He Ht]].
    eexists (idx, _). split; [reflexivity|]. apply I.
    split; [|reflexivity]. apply df_count_pos.
    exists (tf e). split; [now apply in_map|].
    rewrite (has_index_token e idx token He Hnth).
    destruct (in_dec str_eq_dec token (tokenize (text e)));
      [reflexivity|contradiction].
Qed.

(** For chunk texts of ASCII characters, the idf of an index is the idf of
    its token: [log((1 + N) / (1 + df)) + 1.0], where N is the number of
    chunks of the pack and df the number of those that have the token of
    the vocabulary at that index among their tokens. *)
Theorem idf_by_token (idx : nat) (idf : F) (token : str) :
  ascii_chunks chunk_texts = true ->
  In (idx, idf) (idf_pairs p) ->
  nth_error (vocab p) idx = Some token ->
  let N := length (chunks p) in
  let df := length (filter
                      (fun e => if in_dec str_eq_dec token
                                            (tokenize (text e))
                                then true else false)
                      (chunks p)) in
  idf = f_add (f_log (f_int_div (1 + N) (1 + df))) f_one.
Proof.
  intros _ Hin Hnth N df. unfold N, df.
  change (idf = idf_of (length (chunks p))
                  (length (filter
                             (fun e => if in_dec str_eq_dec token
                                                   (tokenize (text e))
                                       then true else false)
                             (chunks p)))).
  destruct (pack_shape rt chunk_texts p Hrun)
    as [_ [_ [_ [X [_ [_ [I _]]]]]]]. cbv zeta in I.
  apply I in Hin. destruct Hin as [_ ->].
  assert (HN : length (filtered_chunks chunk_texts) = length (chunks p)).
  { rewrite <- (length_map fst), <- X. apply length_map. }
  rewrite HN. f_equal. unfold df_count. rewrite filter_map_length.
  f_equal. apply filter_ext_in. intros e He.
  now apply has_index_token.
Qed.

End PackContents.

(** ** The entries of the pack and the runtime *)

Section PackEntries.
Context {F : Type} {fl : PyFloat F}.

(** For chunk texts of ASCII characters, the entries of the pack are the
    chunks of the input that have at least five tokens, in the order of the
    input and with their text as it was. *)
Theorem pack_texts (rt : Runtime) (chunk_texts : list str) (p : pack F) :
  ascii_chunks chunk_texts = true ->
  build_pack rt chunk_texts = Return p ->
  map (@text F) (chunks p)
  = filter (fun c => 5 <=? length (tokenize c)) chunk_texts.
Proof.
  intros _ Hrun.
  destruct (pack_shape rt chunk_texts p Hrun) as [_ [_ [_ [X _]]]].
  rewrite X, map_fst_filtered. apply filter_ext. intros c.
  rewrite Nat.ltb_antisym. apply negb_involutive.
Qed.

Lemma entries_determined (N : list (nat * nat) -> F)
    (l1 : list (chunk_entry F)) : forall l2,
  map (@text F) l1 = map (@text F) l2 ->
  map (@tf F) l1 = map (@tf F) l2 ->
  (forall e, In e l1 -> norm e = N (tf e)) ->
  (forall e, In e l2 -> norm e = N (tf e)) ->
  l1 = l2.
Proof.
  induction l1 as [|a l1 IH]; intros [|b l2]; cbn [map]; try discriminate;
    [reflexivity|].
  intros [= E1 R1] [= E2 R2] H1 H2. f_equal.
  - pose proof (H1 a (or_introl eq_refl)) as Ha.
    pose proof (H2 b (or_introl eq_refl)) as Hb.
    destruct a as [ta fa na], b as [tb fb nb]. cbn in *. congruence.
  - apply IH; [exact R1|exact R2| |].
    + intros e He. apply H1. now right.
    + intros e He. apply H2. now right.
Qed.

(** Two builds from the same chunks differ in [created] at most: the
    vocabulary, the idf pairs, and the entries with their texts, tf vectors
    and norms do not depend on the clock nor on the order in which the sets
    of indices are iterated. *)
Theorem pack_runtime_independent (rt1 rt2 : Runtime) (chunk_texts : list str)
    (p1 p2 : pack F) :
  build_pack rt1 chunk_texts = Return p1 ->
  build_pack rt2 chunk_texts = Return p2 ->
  schema p1 = schema p2
  /\ source p1 = source p2
  /\ vocab p1 = vocab p2
  /\ idf_pairs p1 = idf_pairs p2
  /\ chunks p1 = chunks p2.
Proof.
  intros H1 H2.
  destruct (pack_shape rt1 chunk_texts p1 H1)
    as [Hne [_ [V1 [X1 [T1 [S1 [I1 N1]]]]]]].
  destruct (pack_shape rt2 chunk_texts p2 H2)
    as [_ [_ [V2 [X2 [T2 [S2 [I2 N2]]]]]]].
  cbv zeta in T1, T2, I1, I2.
  assert (EV : vocab p1 = vocab p2) by congruence.
  assert (ET : map (@tf F) (chunks p1) = map (@tf F) (chunks p2))
    by (rewrite T1, T2, EV; reflexivity).
  assert (EI : idf_pairs p1 = idf_pairs p2).
  { apply key_sorted_unique; [exact S1|exact S2|].
    intros [idx v]. rewrite I1, I2, ET. reflexivity. }
  assert (EC : chunks p1 = chunks p2).
  { apply (entries_determined (norm_of (idf_lookup (idf_pairs p1))));
      [congruence|exact ET|exact N1|].
    rewrite EI. exact N2. }
  destruct (build_pack_spec rt1 chunk_texts Hne) as [d1 [_ [_ B1]]].
  destruct (build_pack_spec rt2 chunk_texts Hne) as [d2 [_ [_ B2]]].
  rewrite B1 in H1. rewrite B2 in H2.
  injection H1 as <-. injection H2 as <-.
  repeat split; try reflexivity; assumption.
Qed.

(** When [main] ends well it has written the pack of the normalised and
    segmented text at the output path, has left every other file as it was,
    and has printed one line. *)
Theorem main_writes_pack (rt : Runtime) (pdf_path output_path : str)
    (pdf_exists : bool) (extracted : result str) (w w' : world F) :
  main rt pdf_path output_path pdf_exists extracted w = (Return tt, w') ->
  pdf_exists = true
  /\ exists raw_text p,
       extracted = Return raw_text
       /\ build_pack rt (split_chunks (normalize_text raw_text)) = Return p
       /\ dict_get str_eq_dec (files w') output_path = Some p
       /\ (forall path, path <> output_path ->
             dict_get str_eq_dec (files w') path
             = dict_get str_eq_dec (files w) path)
       /\ stdout w' = stdout w ++ [saved_message p].
Proof.
  unfold main. destruct pdf_exists; cbn [negb]; [|discriminate].
  destruct extracted as [raw_text|e]; [|discriminate].
  destruct (build_pack rt (split_chunks (normalize_text raw_text)))
    as [p|e] eqn:E; [|discriminate].
  intros [= <-]. split; [reflexivity|]. exists raw_text, p.
  unfold write_pack. cbn [files stdout].
  split; [reflexivity|]. split; [exact E|].
  split; [apply dict_get_set_eq|].
  split; [|reflexivity].
  intros path Hne. apply dict_get_set_neq. congruence.
Qed.

End PackEntries.

(** ** The words of the chunks *)

Lemma linebreak_isspace (c : char) : is_linebreak c = true -> isspace c = true.
Proof.
  unfold is_linebreak, isspace. intros H.
  repeat (apply orb_true_iff in H; destruct H as [H|H]);
    try (apply N.eqb_eq in H; subst c; reflexivity);
    apply andb_prop in H; destruct H as [H1 H2]; apply N.leb_le in H1, H2;
    assert (E : ((9 <=? c) && (c <=? 13))%N = true
                \/ ((28 <=? c) && (c <=? 32))%N = true)
      by (rewrite !andb_true_iff, !N.leb_le; lia);
    destruct E as [E|E]; rewrite E; rewrite ?orb_true_r; reflexivity.
Qed.

Lemma split_from_space (a : str) : forall (cur : str) (w : char) (b : str),
  isspace w = true ->
  split_from cur (a ++ w :: b) = split_from cur a ++ split b.
Proof.
  induction a as [|c a IH]; intros cur w b Hw; cbn [app split_from].
  - rewrite Hw. destruct cur; reflexivity.
  - destruct (isspace c); [|now apply IH].
    destruct cur; cbn [app]; now rewrite IH.
Qed.

Lemma split_skip (ws : str) (s : str) :
  forallb isspace ws = true -> split (ws ++ s) = split s.
Proof.
  unfold split. induction ws as [|w ws IH]; cbn [forallb app split_from];
    [reflexivity|].
  intros H. apply andb_prop in H. destruct H as [Hw Hws].
  rewrite Hw. now apply IH.
Qed.

Lemma split_from_leading (ws s cur : str) :
  forallb isspace ws = true -> ws <> [] ->
  split_from cur (ws ++ s) = split_from cur [] ++ split s.
Proof.
  destruct ws as [|w ws]; [contradiction|]. cbn [forallb].
  intros H _. apply andb_prop in H. destruct H as [Hw Hws].
  change ((w :: ws) ++ s) with ([] ++ w :: (ws ++ s)).
  rewrite (split_from_space [] cur w (ws ++ s) Hw).
  now rewrite split_skip.
Qed.

Lemma split_from_trailing (a ws cur : str) :
  forallb isspace ws = true -> split_from cur (a ++ ws) = split_from cur a.
Proof.
  destruct ws as [|w ws]; [now rewrite app_nil_r|]. cbn [forallb].
  intros H. apply andb_prop in H. destruct H as [Hw Hws].
  rewrite (split_from_space a cur w ws Hw).
  rewrite <- (app_nil_r ws), (split_skip ws [] Hws). apply app_nil_r.
Qed.

Lemma split_strip (s : str) : split (strip s) = split s.
Proof.
  unfold strip, lstrip, rstrip. set (t := dropwhile isspace s).
  assert (Ht : split t = split s).
  { unfold t. rewrite <- (takewhile_dropwhile_app isspace s) at 2.
    symmetry. apply split_skip, takewhile_forallb. }
  rewrite <- Ht.
  assert (E : t = rev (dropwhile isspace (rev t))
                  ++ rev (takewhile isspace (rev t))).
  { rewrite <- rev_app_distr, takewhile_dropwhile_app.
    symmetry. apply rev_involutive. }
  rewrite E at 2. unfold split. symmetry. apply split_from_trailing.
  apply forallb_forall. intros c Hc. apply in_rev in Hc.
  pose proof (takewhile_forallb isspace (rev t)) as Hf.
  rewrite forallb_forall in Hf. now apply Hf.
Qed.

Lemma split_sub_spaces (s : str) :
  split (re_sub match_spaces2 (lit " ") s) = split s.
Proof.
  unfold re_sub, split. change (lit " ") with [SPACE].
  assert (G : forall n s cur,
             length s <= n ->
             split_from cur (sub_from match_spaces2 [SPACE] 0 s)
             = split_from cur s).
  { induction n as [|n IH]; intros t cur Hlen.
    - destruct t; [reflexivity|simpl in Hlen; lia].
    - destruct t as [|c rest]; [reflexivity|].
      cbn [sub_from]. unfold match_spaces2 at 1.
      set (r := length (takewhile isspace (c :: rest))) in *.
      destruct (Nat.leb_spec 2 r) as [H2|H2].
      + destruct r as [|r'] eqn:Er; [lia|].
        rewrite sub_from_skipn.
        change (skipn r' rest) with (skipn (S r') (c :: rest)).
        unfold r in Er. rewrite <- Er, skipn_takewhile.
        cbn [app].
        change (SPACE :: ?x) with ([] ++ SPACE :: x).
        rewrite (split_from_space [] cur SPACE _ eq_refl).
        unfold split. rewrite IH.
        * rewrite <- (takewhile_dropwhile_app isspace (c :: rest)) at 2.
          symmetry. apply split_from_leading; [apply takewhile_forallb|].
          intros E. rewrite E in Er. discriminate.
        * pose proof (length_dropwhile isspace (c :: rest)) as Hd.
          assert (Hc : isspace c = true).
          { simpl in Er. destruct (isspace c); [reflexivity|discriminate]. }
          cbn [dropwhile] in *. rewrite Hc in *.
          pose proof (length_dropwhile isspace rest). simpl in Hlen. lia.
      + cbn [split_from]. destruct (isspace c).
        * destruct cur; rewrite IH by (simpl in Hlen; lia); reflexivity.
        * apply IH. simpl in Hlen. lia. }
  apply (G (length s)). lia.
Qed.

Lemma split_join (lines : list str) :
  split (join (lit " ") lines) = flat_map split lines.
Proof.
  change (lit " ") with [SPACE].
  induction lines as [|l more IH]; [reflexivity|].
  cbn [join flat_map]. destruct more as [|m more].
  - now rewrite app_nil_r.
  - cbn [app]. unfold split at 1.
    rewrite (split_from_space l [] SPACE _ eq_refl). fold (split l).
    now rewrite IH.
Qed.

Lemma split_chunk_of (current : list str) :
  split (chunk_of current) = flat_map split current.
Proof.
  unfold chunk_of. now rewrite split_sub_spaces, split_strip, split_join.
Qed.

(** The words of the lines are the words of the text. *)
Lemma splitlines_words (s : str) : forall (after_cr : bool) (cur : str),
  (after_cr = true -> cur = []) ->
  flat_map split (splitlines_from after_cr cur s) = split (rev cur ++ s).
Proof.
  induction s as [|c s IH]; intros after_cr cur Hcr; cbn [splitlines_from].
  - rewrite app_nil_r. destruct cur as [|d cur]; [reflexivity|].
    cbn [flat_map]. now rewrite app_nil_r.
  - destruct (after_cr && (c =? LF)%N) eqn:E.
    + apply andb_prop in E. destruct E as [E1 E2].
      rewrite (Hcr E1). apply N.eqb_eq in E2. subst c.
      rewrite IH by discriminate. cbn [rev app].
      symmetry. apply (split_skip [LF] s). reflexivity.
    + destruct (is_linebreak c) eqn:Eb.
      * cbn [flat_map]. rewrite IH by reflexivity. cbn [rev app].
        unfold split at 3.
        now rewrite (split_from_space (rev cur) [] c s
                                      (linebreak_isspace c Eb)).
      * rewrite IH by discriminate. cbn [rev].
        now rewrite <- app_assoc.
Qed.

Lemma flush_words (st : segmenter) :
  words_of (flush_with (fun _ => true) st) = words_of st.
Proof.
  unfold flush_with, words_of.
  destruct (seg_current st) as [|l ls] eqn:E; [now rewrite E|].
  cbn [seg_chunks seg_current]. fold (chunk_of (l :: ls)).
  rewrite flat_map_app. cbn [flat_map]. rewrite split_chunk_of.
  cbn [flat_map]. now rewrite !app_nil_r.
Qed.

Lemma step_words (st : segmenter) (line : str) :
  words_of (step_with (fun _ => true) st line) = words_of st ++ split line.
Proof.
  unfold step_with. rewrite <- (split_strip line).
  destruct (strip line) as [|c stripped].
  - rewrite flush_words. symmetry. apply app_nil_r.
  - assert (G : forall st' : segmenter,
               words_of st' = words_of st ->
               words_of (Segmenter (seg_chunks st')
                                   (seg_current st' ++ [c :: stripped]))
               = words_of st ++ split (c :: stripped)).
    { intros st' E. rewrite <- E. unfold words_of.
      cbn [seg_chunks seg_current]. rewrite flat_map_app. cbn [flat_map].
      now rewrite app_nil_r, app_assoc. }
    cbv zeta.
    destruct (startswith (c :: stripped) (lit "-")
              && match seg_current st with [] => false | _ => true end);
      apply G; [apply flush_words|reflexivity].
Qed.

Lemma fold_words (lines : list str) : forall st : segmenter,
  words_of (fold_left (step_with (fun _ => true)) lines st)
  = words_of st ++ flat_map split lines.
Proof.
  induction lines as [|line lines IH]; intros st; cbn [fold_left flat_map].
  - symmetry. apply app_nil_r.
  - now rewrite IH, step_words, app_assoc.
Qed.

(** The segmenter neither loses nor adds nor moves a word: the words of the
    candidate chunks, one chunk after the other, are the words of the text;
    and [split_chunks] returns the candidates of at least five words. *)
Theorem segmentation_words (text : str) :
  flat_map split (candidates text) = split text
  /\ split_chunks text = filter five_words (candidates text).
Proof.
  split; [|apply split_chunks_candidates].
  unfold candidates, segment_with.
  set (st := fold_left _ _ _).
  assert (E : seg_current (flush_with (fun _ => true) st) = []).
  { unfold flush_with. destruct (seg_current st) eqn:Ec; [exact Ec|].
    reflexivity. }
  pose proof (flush_words st) as W. unfold words_of at 1 in W.
  rewrite E in W. cbn [flat_map] in W. rewrite app_nil_r in W.
  rewrite W. unfold st. rewrite fold_words. unfold words_of.
  cbn [seg_chunks seg_current flat_map app]. unfold splitlines.
  now rewrite splitlines_words by discriminate.
Qed.

(** ** Text extraction *)

Lemma page_texts_app (l1 l2 : list page_outcome) :
  page_texts (l1 ++ l2) = page_texts l1 ++ page_texts l2.
Proof.
  induction l1 as [|[[t|]|] l1 IH]; cbn [app page_texts]; try rewrite IH;
    reflexivity.
Qed.

(** When pdfminer is not installed, [load_pdf_text] returns a text only if
    PyPDF2 has read pages whose texts, joined by line feeds, hold more than
    white space; it returns that text, writes no warning, and in every
    other case it raises [SystemExit] with the message that names the two
    libraries. *)
Theorem load_pdf_text_primary_only (primary : pypdf2_outcome)
    (stderr : list str) :
  match load_pdf_text primary PdfminerMissing stderr with
  | (Return text, stderr') =>
      strip text <> []
      /\ stderr' = stderr
      /\ exists pages,
           primary = PyPDF2Pages pages
           /\ text = join [LF] (page_texts pages)
  | (Raise e, _) => e = SystemExit no_backend_message
  end.
Proof.
  unfold load_pdf_text. destruct primary as [|err|pages]; try reflexivity.
  destruct (strip (join [LF] (page_texts pages))) as [|c s] eqn:E;
    [reflexivity|].
  split; [rewrite E; discriminate|]. split; [reflexivity|].
  exists pages. auto.
Qed.

(** A page whose extraction raises changes nothing: the outcome is the one
    of the document without that page. *)
Theorem load_pdf_text_skips_page (l1 l2 : list page_outcome)
    (fallback : pdfminer_outcome) (stderr : list str) :
  load_pdf_text (PyPDF2Pages (l1 ++ PageRaises :: l2)) fallback stderr
  = load_pdf_text (PyPDF2Pages (l1 ++ l2)) fallback stderr.
Proof.
  unfold load_pdf_text. rewrite !page_texts_app. reflexivity.
Qed.

(** ** The texts of the pack that [main] writes *)

Section WrittenPack.
Context {F : Type} {fl : PyFloat F}.

(** The pack that [main] writes has at least one entry, and the text of
    each entry is one line of ASCII characters, without white space at its
    ends nor two white space characters side by side, of at least five
    words and at least five tokens. *)
Theorem main_pack_texts (rt : Runtime) (pdf_path output_path : str)
    (pdf_exists : bool) (extracted : result str) (w w' : world F) :
  main rt pdf_path output_path pdf_exists extracted w = (Return tt, w') ->
  exists p,
    dict_get str_eq_dec (files w') output_path = Some p
    /\ chunks p <> []
    /\ forall e, In e (chunks p) ->
         forallb is_ascii (text e) = true
         /\ (forall c, In c (text e) -> is_linebreak c = false)
         /\ trimmed (text e)
         /\ space_run false (text e) = false
         /\ 5 <= length (split (text e))
         /\ 5 <= length (tokenize (text e)).
Proof.
  unfold main. destruct pdf_exists; cbn [negb]; [|discriminate].
  destruct extracted as [raw_text|e0]; [|discriminate].
  destruct (build_pack rt (split_chunks (normalize_text raw_text)))
    as [p|e0] eqn:E; [|discriminate].
  intros [= <-]. exists p. unfold write_pack. cbn [files].
  split; [apply dict_get_set_eq|].
  destruct (pack_shape rt _ p E) as [Hne [_ [_ [X _]]]].
  split.
  - intros Hnil. rewrite Hnil in X. cbn [map] in X.
    symmetry in X. apply map_eq_nil in X. contradiction.
  - intros e He. destruct (pack_entry rt _ p E e He) as [Hin [Htok _]].
    pose proof (segment_with_origin five_words _ _ Hin) as Hfrom.
    assert (Hchars : forall c, In c (text e) ->
              is_linebreak c = false
              /\ (c = SPACE \/ In c (normalize_text raw_text)))
      by (intros c Hc; exact (chunk_from_chars _ _ _ c Hfrom Hc)).
    destruct Hfrom as [current [_ [_ [Echunk Hkeep]]]].
    split.
    { apply forallb_forall. intros c Hc.
      destruct (Hchars c Hc) as [_ [->|Hn]]; [reflexivity|].
      exact (normalize_text_chars raw_text c Hn). }
    split; [intros c Hc; apply (Hchars c Hc)|].
    split; [rewrite Echunk; apply sub_spaces_trimmed, strip_trimmed|].
    split; [rewrite Echunk; apply sub_spaces_no_run|].
    split; [|exact Htok].
    unfold five_words in Hkeep. apply Nat.leb_le. exact Hkeep.
Qed.

End WrittenPack.

(** ** The further properties at concrete inputs *)

Lemma vocab_sorted_witness :
  exists p : pack R,
    build_pack demo_runtime demo_chunks = Return p
    /\ StronglySorted (fun a b => str_ltb a b = true) (vocab p)
    /\ NoDup (vocab p).
Proof.
  eexists. split; [vm_compute; reflexivity|].
  apply (vocab_sorted demo_runtime demo_chunks). vm_compute. reflexivity.
Defined.

Lemma vocab_tokens_witness :
  exists p : pack R,
    build_pack demo_runtime demo_chunks = Return p
    /\ ascii_chunks demo_chunks = true
    /\ (In (lit "rust") (vocab p)
        <-> exists e, In e (chunks p) /\ In (lit "rust") (tokenize (text e))).
Proof.
  eexists. split; [vm_compute; reflexivity|].
  split; [vm_compute; reflexivity|].
  apply (vocab_tokens demo_runtime demo_chunks).
  - vm_compute. reflexivity.
  - vm_compute. reflexivity.
Defined.

Lemma tf_counts_witness :
  exists (p : pack R) (e : chunk_entry R),
    build_pack demo_runtime demo_chunks = Return p
    /\ ascii_chunks demo_chunks = true
    /\ In e (chunks p)
    /\ (In (0, 1) (tf e)
        <-> exists token,
              nth_error (vocab p) 0 = Some token
              /\ In token (tokenize (text e))
              /\ 1 = count_occ str_eq_dec (tokenize (text e)) token).
Proof.
  eexists. eexists. split; [vm_compute; reflexivity|].
  split; [vm_compute; reflexivity|].
  split; [left; reflexivity|].
  apply (tf_counts demo_runtime demo_chunks).
  - vm_compute. reflexivity.
  - vm_compute. reflexivity.
  - left. reflexivity.
Defined.

Lemma tf_sorted_witness :
  exists (p : pack R) (e : chunk_entry R),
    build_pack demo_runtime demo_chunks = Return p
    /\ In e (chunks p)
    /\ StronglySorted key_lt (tf e).
Proof.
  eexists. eexists. split; [vm_compute; reflexivity|].
  split; [left; reflexivity|].
  eapply (tf_sorted demo_runtime demo_chunks).
  - vm_compute. reflexivity.
  - left. reflexivity.
Defined.

Lemma tf_total_witness :
  exists (p : pack R) (e : chunk_entry R),
    build_pack demo_runtime demo_chunks = Return p
    /\ ascii_chunks demo_chunks = true
    /\ In e (chunks p)
    /\ list_sum (map snd (tf e)) = length (tokenize (text e)).
Proof.
  eexists. eexists. split; [vm_compute; reflexivity|].
  split; [vm_compute; reflexivity|].
  split; [left; reflexivity|].
  eapply (tf_total demo_runtime demo_chunks).
  - vm_compute. reflexivity.
  - vm_compute. reflexivity.
  - left. reflexivity.
Defined.

Lemma idf_pairs_indices_witness :
  exists p : pack R,
    build_pack demo_runtime demo_chunks = Return p
    /\ keys (idf_pairs p) = seq 0 (length (vocab p)).
Proof.
  eexists. split; [vm_compute; reflexivity|].
  apply (idf_pairs_indices demo_runtime demo_chunks). vm_compute. reflexivity.
Defined.

Lemma idf_by_token_witness :
  exists (p : pack R) (idf : R),
    build_pack demo_runtime demo_chunks = Return p
    /\ ascii_chunks demo_chunks = true
    /\ In (0, idf) (idf_pairs p)
    /\ nth_error (vocab p) 0 = Some (lit "golang")
    /\ idf
       = (ln (INR (1 + length (chunks p))
              / INR (1 + length
                           (filter
                              (fun e => if in_dec str_eq_dec (lit "golang")
                                                    (tokenize (text e))
                                        then true else false)
                              (chunks p))))
          + 1)%R.
Proof.
  eexists. eexists. split; [vm_compute; reflexivity|].
  split; [vm_compute; reflexivity|].
  split; [left; reflexivity|]. split; [vm_compute; reflexivity|].
  eapply (idf_by_token (fl := R_float) demo_runtime demo_chunks)
    with (idx := 0) (token := lit "golang").
  - vm_compute. reflexivity.
  - vm_compute. reflexivity.
  - left. reflexivity.
  - vm_compute. reflexivity.
Defined.

Lemma pack_texts_witness :
  exists p : pack R,
    build_pack demo_runtime demo_chunks = Return p
    /\ ascii_chunks demo_chunks = true
    /\ map (@text R) (chunks p)
       = filter (fun c => 5 <=? length (tokenize c)) demo_chunks.
Proof.
  eexists. split; [vm_compute; reflexivity|].
  split; [vm_compute; reflexivity|].
  apply (pack_texts demo_runtime demo_chunks).
  - vm_compute. reflexivity.
  - vm_compute. reflexivity.
Defined.

Lemma pack_runtime_independent_witness :
  exists p1 p2 : pack R,
    build_pack demo_runtime demo_chunks = Return p1
    /\ build_pack (runtime_lifo (lit "2025-06-30T12:00:00")) demo_chunks
       = Return p2
    /\ schema p1 = schema p2
    /\ source p1 = source p2
    /\ vocab p1 = vocab p2
    /\ idf_pairs p1 = idf_pairs p2
    /\ chunks p1 = chunks p2.
Proof.
  eexists. eexists. split; [vm_compute; reflexivity|].
  split; [vm_compute; reflexivity|].
  apply (pack_runtime_independent
           demo_runtime (runtime_lifo (lit "2025-06-30T12:00:00"))
           demo_chunks).
  - vm_compute. reflexivity.
  - vm_compute. reflexivity.
Defined.

Lemma main_writes_pack_witness :
  exists w' : world R,
    main demo_runtime (lit "cv.pdf") (lit "pack.json") true
         (Return demo_raw_text) demo_world = (Return tt, w')
    /\ true = true
    /\ exists raw_text p,
         Return demo_raw_text = Return raw_text
         /\ build_pack demo_runtime (split_chunks (normalize_text raw_text))
            = Return p
         /\ dict_get str_eq_dec (files w') (lit "pack.json") = Some p
         /\ (forall path, path <> lit "pack.json" ->
               dict_get str_eq_dec (files w') path
               = dict_get str_eq_dec (files demo_world) path)
         /\ stdout w' = stdout demo_world ++ [saved_message p].
Proof.
  eexists. split; [vm_compute; reflexivity|].
  apply (main_writes_pack demo_runtime (lit "cv.pdf") (lit "pack.json")).
  vm_compute. reflexivity.
Defined.

Lemma main_pack_texts_witness :
  exists w' : world R,
    main demo_runtime (lit "cv.pdf") (lit "pack.json") true
         (Return demo_raw_text) demo_world = (Return tt, w')
    /\ exists p,
         dict_get str_eq_dec (files w') (lit "pack.json") = Some p
         /\ chunks p <> []
         /\ forall e, In e (chunks p) ->
              forallb is_ascii (text e) = true
              /\ (forall c, In c (text e) -> is_linebreak c = false)
              /\ trimmed (text e)
              /\ space_run false (text e) = false
              /\ 5 <= length (split (text e))
              /\ 5 <= length (tokenize (text e)).
Proof.
  eexists. split; [vm_compute; reflexivity|].
  apply (main_pack_texts demo_runtime (lit "cv.pdf") (lit "pack.json") true
                         (Return demo_raw_text) demo_world).
  vm_compute. reflexivity.
Defined.
